(** * Wall-clock sampling engine (wallClock.cpp, engine.cpp)

    A shallow embedding of the wall-clock engine of async-profiler:
    the thread-state classifier, the signal-mediated handshake between
    [WallClock::walkStack] and [WallClock::signalHandler], the interval
    adjustment, the timer loop and the engine lifecycle.

    The five handshake variables are [std::atomic] objects accessed with
    the default (sequentially consistent) ordering, so the handshake is
    modelled by interleaving: every step of a thread performs at most one
    access to a shared atomic. *)

From stdpp Require Import base numbers list strings.

Local Open Scope Z_scope.

(** ** Machine integers *)

(** Two's complement wrap-around of a [w]-bit signed integer. *)
Definition wrap_signed (w z : Z) : Z := (z + 2 ^ (w - 1)) mod 2 ^ w - 2 ^ (w - 1).

(** [int], [long] / [long long] and [uintptr_t] on the LP64 targets. *)
Definition wrap_int (z : Z) : Z := wrap_signed 32 z.
Definition wrap_long (z : Z) : Z := wrap_signed 64 z.
Definition wrap_uintptr (z : Z) : Z := z mod 2 ^ 64.

Definition INT_MAX : Z := 2147483647.

(** ** Constants of wallClock.cpp *)

(** [const int THREADS_PER_TICK = 8;] *)
Definition THREADS_PER_TICK : Z := 8.

(** [const long MIN_INTERVAL = 100000;] (nanoseconds) *)
Definition MIN_INTERVAL : Z := 100000.

(** The literal [10 * 1000 * 1000] passed to [waitWhile] in [walkStack]. *)
Definition HANDSHAKE_TIMEOUT : Z := 10 * 1000 * 1000.

Inductive ThreadState := THREAD_RUNNING | THREAD_SLEEPING | THREAD_UNKNOWN.

(** ** WallClock::getThreadState *)

(** The machine context a [StackFrame] is built from: the interrupted
    program counter and the outcome of the architecture's
    [checkInterruptedSyscall] on that frame. *)
Record StackFrame := mkFrame { pc : Z; checkInterruptedSyscall : bool }.

Section ThreadStateClassifier.

(** Declared in the architecture header, which is not part of the
    sources at hand: the byte length of the syscall instruction, the
    test [StackFrame::isSyscall] (it dereferences its argument) and
    whether [Profiler::findLibraryByAddress] returns a library. *)
Variable SYSCALL_SIZE : Z.
Variable isSyscall : Z -> bool.
Variable findLibraryByAddress : Z -> bool.

(** The result is paired with the addresses handed to [isSyscall], in
    program order: these are the instruction addresses the function
    reads. *)
Definition getThreadState (frame : StackFrame) : ThreadState * list Z :=
  let pc := pc frame in
  if isSyscall pc then (THREAD_SLEEPING, [pc])
  else
    let prev_pc := wrap_uintptr (pc - SYSCALL_SIZE) in
    if (Z.land pc 0xfff >=? SYSCALL_SIZE) || findLibraryByAddress prev_pc then
      if isSyscall prev_pc then
        if checkInterruptedSyscall frame
        then (THREAD_SLEEPING, [pc; prev_pc])
        else (THREAD_RUNNING, [pc; prev_pc])
      else (THREAD_RUNNING, [pc; prev_pc])
    else (THREAD_RUNNING, [pc]).

End ThreadStateClassifier.

(** ** waitWhile *)

(** One turn of the loop of [waitWhile]: [condition] is the value the
    callback returns, [start] the clock value taken before the loop, [now]
    the clock value read in this turn.  [Some b] means the function
    returns [b]; [None] means it issues the fence and loops. *)
Definition waitWhile_turn (condition : bool) (timeout_ns start now : Z) : option bool :=
  if condition then
    let diff := wrap_long (now - start) in
    if negb (timeout_ns =? -1) && (diff >? timeout_ns) then Some false else None
  else Some true.

(** ** WallClock::adjustInterval *)

Definition adjustInterval (interval thread_count : Z) : Z :=
  if thread_count >? THREADS_PER_TICK then
    wrap_long
      (Z.quot interval
         (Z.quot (wrap_int (wrap_int (thread_count + THREADS_PER_TICK) - 1)) THREADS_PER_TICK))
  else interval.

(** ** The handshake slot *)

(** [struct Data]: built by the handler on its own stack. *)
Record Data := mkData { ucontext : StackFrame; jni : Z }.

(** The five file-scope atomics.  A [Data*] is [None] for [nullptr] and
    [Some h] for the address of the local [data] of handler invocation
    [h]. *)
Record Slot := mkSlot {
  _thread_id : Z;
  _thread_data : option nat;
  _thread_data_settable : bool;
  _thread_data_ready : bool;
  _stack_walked : bool }.

Definition store_thread_id (v : Z) (s : Slot) : Slot :=
  mkSlot v (_thread_data s) (_thread_data_settable s) (_thread_data_ready s) (_stack_walked s).
Definition store_thread_data (v : option nat) (s : Slot) : Slot :=
  mkSlot (_thread_id s) v (_thread_data_settable s) (_thread_data_ready s) (_stack_walked s).
Definition store_settable (v : bool) (s : Slot) : Slot :=
  mkSlot (_thread_id s) (_thread_data s) v (_thread_data_ready s) (_stack_walked s).
Definition store_ready (v : bool) (s : Slot) : Slot :=
  mkSlot (_thread_id s) (_thread_data s) (_thread_data_settable s) v (_stack_walked s).
Definition store_walked (v : bool) (s : Slot) : Slot :=
  mkSlot (_thread_id s) (_thread_data s) (_thread_data_settable s) (_thread_data_ready s) v.

(** What a step does that another thread or the recorder can see. *)
Inductive Event :=
| EvStoreThreadId (tid : Z)
| EvStoreData (p : option nat)
| EvStoreSettable (b : bool)
| EvStoreWalked (b : bool)
| EvStoreReady (b : bool)
| EvCas (h : nat) (won : bool)
| EvFence
| EvSignal (tid : Z) (sent : bool)
| EvRecord (uc : StackFrame) (interval : Z) (state : ThreadState) (env : Z).

(** ** WallClock::signalHandler, one atomic access per step *)

Inductive HandlerPc :=
| HCheck            (* if (OS::threadId() != _thread_id) return; *)
| HCas              (* _thread_data_settable.compare_exchange_strong(f, false) *)
| HBuild            (* Data data{ucontext, VM::jni()}; atomic_thread_fence *)
| HPublish          (* _thread_data = &data; *)
| HReady            (* _thread_data_ready = true; *)
| HWaitStart        (* waitWhile: long start = OS::nanotime(); *)
| HWait (start : Z) (* waitWhile: while (!_stack_walked) ... , no timeout *)
| HDone.            (* returned *)

(** A handler invocation: the interrupted thread ([OS::threadId()]), the
    [ucontext] argument, what [VM::jni()] yields on that thread, the local
    [data] once it is built, and the program point. *)
Record Handler := mkHandler {
  h_tid : Z;
  h_ucontext : StackFrame;
  h_jni : Z;
  h_data : option Data;
  h_pc : HandlerPc }.

Definition h_goto (p : HandlerPc) (h : Handler) : Handler :=
  mkHandler (h_tid h) (h_ucontext h) (h_jni h) (h_data h) p.

Definition signalHandler_step (now : Z) (self : nat) (h : Handler) (s : Slot)
  : Handler * Slot * list Event :=
  match h_pc h with
  | HCheck =>
      if h_tid h =? _thread_id s then (h_goto HCas h, s, [])
      else (h_goto HDone h, s, [])
  | HCas =>
      if _thread_data_settable s
      then (h_goto HBuild h, store_settable false s, [EvCas self true])
      else (h_goto HDone h, s, [EvCas self false])
  | HBuild =>
      (mkHandler (h_tid h) (h_ucontext h) (h_jni h)
         (Some (mkData (h_ucontext h) (h_jni h))) HPublish, s, [EvFence])
  | HPublish =>
      (h_goto HReady h, store_thread_data (Some self) s, [EvStoreData (Some self)])
  | HReady =>
      (h_goto HWaitStart h, store_ready true s, [EvStoreReady true])
  | HWaitStart => (h_goto (HWait now) h, s, [])
  | HWait start =>
      match waitWhile_turn (negb (_stack_walked s)) (-1) start now with
      | None => (h, s, [EvFence])
      | Some _ => (h_goto HDone h, s, [])
      end
  | HDone => (h, s, [])
  end.

(** ** WallClock::walkStack, one atomic access per step *)

Inductive WalkPc :=
| WIdle               (* not inside walkStack *)
| WSetThreadId        (* _thread_id = thread_id; *)
| WSetData            (* _thread_data = nullptr; *)
| WSetSettable        (* _thread_data_settable = true; *)
| WSetWalked          (* _stack_walked = false; *)
| WSetReady           (* _thread_data_ready = false; *)
| WSend               (* OS::sendSignalToThread(thread_id, SIGVTALRM) *)
| WWaitStart          (* waitWhile: long start = OS::nanotime(); *)
| WWait (start : Z)   (* waitWhile: while (!_thread_data_ready) ..., 10 ms *)
| WLoad               (* Data *data = _thread_data.load(); *)
| WRecord (data : option nat) (* getThreadState / recordSample on data-> *)
| WRelease            (* _stack_walked = true; return true; *)
| WAbandon            (* _thread_id = -1; return false; *)
| WReturn (b : bool)  (* returned b *)
| WFault.             (* dereferenced a null, unbuilt or dead Data *)

Record Driver := mkDriver { d_pc : WalkPc; d_arg : Z }.

(** What the operating system answers in a step: whether the signal could
    be sent, and the monotonic clock. *)
Record OSIn := mkOS { signal_ok : bool; nanotime : Z }.

(** The whole process: the slot, the timer thread inside [walkStack], all
    handler invocations so far, and the threads with a SIGVTALRM sent but
    not yet delivered. *)
Record Sys := mkSys {
  slot : Slot;
  driver : Driver;
  handlers : list Handler;
  pending : list Z }.

Definition with_slot (sl : Slot) (s : Sys) : Sys :=
  mkSys sl (driver s) (handlers s) (pending s).
Definition goto (p : WalkPc) (s : Sys) : Sys :=
  mkSys (slot s) (mkDriver p (d_arg (driver s))) (handlers s) (pending s).

(** The static configuration fields of [WallClock] together with what
    [start] and [stop] change besides them: the disposition of SIGVTALRM
    and the timer thread. *)
Record WallClock := mkWallClock {
  _interval : Z;
  _sample_idle_threads : bool;
  _running : bool;
  sigvtalrm_installed : bool;
  _thread : bool }.

Section Handshake.

Variable SYSCALL_SIZE : Z.
Variable isSyscall : Z -> bool.
Variable findLibraryByAddress : Z -> bool.
Variable wc : WallClock.

(** [data->ucontext] and [data->jni].  [data] is a local variable of a
    handler invocation, so the pointer is good only while that invocation
    has built it and has not returned: a null pointer, the address of a
    [data] that was never built, and the address of the frame of an
    invocation that has returned cannot be dereferenced. *)
Definition deref (hs : list Handler) (p : option nat) : option Data :=
  match p with
  | None => None
  | Some h =>
      match hs !! h with
      | Some hd => match h_pc hd with HDone => None | _ => h_data hd end
      | None => None
      end
  end.

Definition walkStack_step (os : OSIn) (s : Sys) : Sys * list Event :=
  let thread_id := d_arg (driver s) in
  match d_pc (driver s) with
  | WIdle | WReturn _ | WFault => (s, [])
  | WSetThreadId =>
      (goto WSetData (with_slot (store_thread_id thread_id (slot s)) s),
       [EvStoreThreadId thread_id])
  | WSetData =>
      (goto WSetSettable (with_slot (store_thread_data None (slot s)) s),
       [EvStoreData None])
  | WSetSettable =>
      (goto WSetWalked (with_slot (store_settable true (slot s)) s),
       [EvStoreSettable true])
  | WSetWalked =>
      (goto WSetReady (with_slot (store_walked false (slot s)) s),
       [EvStoreWalked false])
  | WSetReady =>
      (goto WSend (with_slot (store_ready false (slot s)) s),
       [EvStoreReady false])
  | WSend =>
      if signal_ok os
      then (mkSys (slot s) (mkDriver WWaitStart thread_id) (handlers s)
              (thread_id :: pending s),
            [EvSignal thread_id true])
      else (goto WAbandon s, [EvSignal thread_id false])
  | WWaitStart => (goto (WWait (nanotime os)) s, [])
  | WWait start =>
      match waitWhile_turn (negb (_thread_data_ready (slot s)))
              HANDSHAKE_TIMEOUT start (nanotime os) with
      | None => (s, [EvFence])
      | Some true => (goto WLoad s, [])
      | Some false => (goto WAbandon s, [])
      end
  | WLoad => (goto (WRecord (_thread_data (slot s))) s, [])
  | WRecord data =>
      match deref (handlers s) data with
      | None => (goto WFault s, [])
      | Some d =>
          let state :=
            if _sample_idle_threads wc
            then fst (getThreadState SYSCALL_SIZE isSyscall findLibraryByAddress
                        (ucontext d))
            else THREAD_UNKNOWN in
          (goto WRelease s, [EvRecord (ucontext d) (_interval wc) state (jni d)])
      end
  | WRelease =>
      (goto (WReturn true) (with_slot (store_walked true (slot s)) s),
       [EvStoreWalked true])
  | WAbandon =>
      (goto (WReturn false) (with_slot (store_thread_id (-1) (slot s)) s),
       [EvStoreThreadId (-1)])
  end.

(** ** The interleaving *)

Inductive Action :=
| ActCall (thread_id : Z)      (* the timer loop calls walkStack(thread_id) *)
| ActDriver (os : OSIn)        (* the timer thread takes its next step *)
| ActDeliver (tid : Z) (uc : StackFrame) (env : Z)
                               (* a pending SIGVTALRM reaches thread tid *)
| ActSpurious (tid : Z) (uc : StackFrame) (env : Z)
                               (* a SIGVTALRM that walkStack did not send *)
| ActHandler (h : nat) (now : Z). (* handler invocation h takes its next step *)

Fixpoint remove_first (x : Z) (l : list Z) : list Z :=
  match l with
  | [] => []
  | y :: l' => if x =? y then l' else y :: remove_first x l'
  end.

Definition invoke (tid : Z) (uc : StackFrame) (env : Z) (s : Sys) : Sys :=
  mkSys (slot s) (driver s)
    (handlers s ++ [mkHandler tid uc env None HCheck]) (pending s).

Definition step (a : Action) (s : Sys) : Sys * list Event :=
  match a with
  | ActCall thread_id =>
      match d_pc (driver s) with
      | WIdle | WReturn _ =>
          (mkSys (slot s) (mkDriver WSetThreadId thread_id) (handlers s) (pending s), [])
      | _ => (s, [])
      end
  | ActDriver os => walkStack_step os s
  | ActDeliver tid uc env =>
      if existsb (Z.eqb tid) (pending s)
      then (invoke tid uc env
              (mkSys (slot s) (driver s) (handlers s) (remove_first tid (pending s))), [])
      else (s, [])
  | ActSpurious tid uc env => (invoke tid uc env s, [])
  | ActHandler h now =>
      match handlers s !! h with
      | Some hd =>
          let '(hd', sl', evs) := signalHandler_step now h hd (slot s) in
          (mkSys sl' (driver s) (<[h := hd']> (handlers s)) (pending s), evs)
      | None => (s, [])
      end
  end.

(** Runs a schedule; the events come out in the order they happen. *)
Fixpoint exec (sch : list Action) (s : Sys) : Sys * list Event :=
  match sch with
  | [] => (s, [])
  | a :: sch' =>
      let '(s1, e1) := step a s in
      let '(s2, e2) := exec sch' s1 in
      (s2, e1 ++ e2)
  end.

(** One call of [walkStack] seen from the timer loop: the call, then
    the interleaving [sch] of its steps with those of the handlers.  The
    answer is the returned boolean, or [None] when [sch] ends before the
    call does or the call faults. *)
Definition walkStack_run (thread_id : Z) (sch : list Action) (s : Sys)
  : option (bool * Sys * list Event) :=
  let '(s', evs) := exec (ActCall thread_id :: sch) s in
  match d_pc (driver s') with
  | WReturn b => Some (b, s', evs)
  | _ => None
  end.

End Handshake.

(** ** Observing executions *)

(** Zero-initialised statics, timer thread outside [walkStack], no handler
    running, no signal pending. *)
Definition boot : Sys :=
  mkSys (mkSlot 0 None false false false) (mkDriver WIdle 0) [] [].

Fixpoint count_ev (f : Event -> bool) (evs : list Event) : nat :=
  match evs with
  | [] => O
  | e :: evs' => ((if f e then 1 else 0) + count_ev f evs')%nat
  end.

Definition is_cas_win (e : Event) : bool :=
  match e with EvCas _ true => true | _ => false end.
Definition is_arm (e : Event) : bool :=
  match e with EvStoreSettable true => true | _ => false end.
Definition is_record (e : Event) : bool :=
  match e with EvRecord _ _ _ _ => true | _ => false end.
Definition is_call (a : Action) : bool :=
  match a with ActCall _ => true | _ => false end.

(** Steps of the handlers and of the kernel, as opposed to the timer
    thread's. *)
Definition is_env (a : Action) : bool :=
  match a with ActCall _ | ActDriver _ => false | _ => true end.

(** Program points of a handler invocation that passed the thread check
    and won the compare-and-swap, and has not returned. *)
Definition won (p : HandlerPc) : bool :=
  match p with
  | HBuild | HPublish | HReady | HWaitStart | HWait _ => true
  | HCheck | HCas | HDone => false
  end.


Definition is_fence (e : Event) : bool :=
  match e with EvFence => true | _ => false end.
Definition is_spurious (a : Action) : bool :=
  match a with ActSpurious _ _ _ => true | _ => false end.

(** The timer thread is outside [walkStack]. *)
Definition idle (s : Sys) : bool :=
  match d_pc (driver s) with WIdle | WReturn _ => true | _ => false end.



Definition b2n (b : bool) : nat := if b then 1%nat else 0%nat.

(** The arm phase as the specification words it, for a target [T]:
    [target_tid = T], [context_ptr = null], [context_ready = false],
    [stack_walked = false], [handler_may_publish = true], then a fence. *)
Definition arm_order_claimed (T : Z) : list Event :=
  [EvStoreThreadId T; EvStoreData None; EvStoreReady false; EvStoreWalked false;
   EvStoreSettable true; EvFence].


(** ** WallClock::timerLoop *)

(** Modelled from the spec: the thread enumeration of the OS facade
    ([OS::listThreads]), whose class is not part of the sources at hand:
    [next() -> tid | END] with END = -1, [rewind()], [size()], with a
    cursor kept across calls. *)
Record ThreadList := mkThreadList { tids : list Z; cursor : nat }.

Definition tl_next (l : ThreadList) : Z * ThreadList :=
  match tids l !! cursor l with
  | Some t => (t, mkThreadList (tids l) (S (cursor l)))
  | None => (-1, l)
  end.
Definition tl_rewind (l : ThreadList) : ThreadList := mkThreadList (tids l) O.
Definition tl_size (l : ThreadList) : Z := Z.of_nat (length (tids l)).

(** Modelled from the spec: the thread filter of the profiler, whose class
    is not part of the sources at hand: [enabled()], [size()],
    [accept(tid)]. *)
Record ThreadFilter := mkThreadFilter {
  enabled : bool;
  size : Z;
  accept : Z -> bool }.

(** Entries of the thread list the cursor has not passed yet. *)
Definition remaining (l : ThreadList) : nat := (length (tids l) - cursor l)%nat.

Inductive Flow := Break | Continue.

Section TimerLoop.

(** Everything [walkStack] and [OS::threadState] depend on and change:
    the slot, the other threads, the recorder. *)
Variable World : Type.
Variable walkStack : Z -> World -> bool * World.
Variable threadState : Z -> World -> ThreadState.

Variable wc : WallClock.
Variable self : Z.
Variable thread_filter : ThreadFilter.

Definition is_running (st : ThreadState) : bool :=
  match st with THREAD_RUNNING => true | _ => false end.

(** One turn of [for (int count = 0; count < THREADS_PER_TICK; )]. *)
Definition sample_turn (count : Z) (thread_list : ThreadList) (w : World)
  : Flow * Z * ThreadList * World :=
  let '(thread_id, thread_list) := tl_next thread_list in
  if thread_id =? -1 then (Break, count, tl_rewind thread_list, w)
  else if (thread_id =? self)
          || (enabled thread_filter && negb (accept thread_filter thread_id))
  then (Continue, count, thread_list, w)
  else if _sample_idle_threads wc || is_running (threadState thread_id w) then
    let '(sampled, w) := walkStack thread_id w in
    (Continue, (if sampled then wrap_int (count + 1) else count), thread_list, w)
  else (Continue, count, thread_list, w).

Fixpoint sample_loop (fuel : nat) (count : Z) (thread_list : ThreadList) (w : World)
  : option (Z * ThreadList * World) :=
  if count <? THREADS_PER_TICK then
    match fuel with
    | O => None
    | S fuel' =>
        match sample_turn count thread_list w with
        | (Break, count, thread_list, w) => Some (count, thread_list, w)
        | (Continue, count, thread_list, w) => sample_loop fuel' count thread_list w
        end
    end
  else Some (count, thread_list, w).

Record Loop := mkLoop {
  next_cycle_time : Z;
  thread_list : ThreadList;
  world : World }.

(** One turn of [while (_running)]: [_enabled] is the value of the
    volatile flag read at the top, [current_time] the clock read after
    the sampling loop.  The result is the state for the next turn and
    the argument of the one [OS::sleep] call of the turn. *)
Definition timerLoop_turn (fuel : nat) (_enabled : bool) (current_time : Z) (l : Loop)
  : option (Loop * Z) :=
  if negb _enabled then Some (l, _interval wc)
  else
    let sample_idle_threads := _sample_idle_threads wc in
    let next_cycle_time :=
      if sample_idle_threads then
        let estimated_thread_count :=
          if enabled thread_filter then size thread_filter else tl_size (thread_list l) in
        wrap_long (next_cycle_time l + adjustInterval (_interval wc) estimated_thread_count)
      else next_cycle_time l in
    match sample_loop fuel 0 (thread_list l) (world l) with
    | None => None
    | Some (_, thread_list, w) =>
        if sample_idle_threads then
          if wrap_long (next_cycle_time - current_time) >? MIN_INTERVAL then
            Some (mkLoop next_cycle_time thread_list w,
                  wrap_long (next_cycle_time - current_time))
          else
            Some (mkLoop (wrap_long (current_time + MIN_INTERVAL)) thread_list w,
                  MIN_INTERVAL)
        else Some (mkLoop next_cycle_time thread_list w, _interval wc)
    end.

End TimerLoop.

(** ** Lifecycle: Engine::check, WallClock::start *)

Inductive Error := OK | Err (msg : string).

Record Arguments := mkArguments {
  _wall : Z;
  args_interval : Z;   (* args._interval *)
  _event : string }.

(** [Engine::check] and [Engine::start] of engine.cpp. *)
Definition Engine_check (args : Arguments) : Error := OK.
Definition Engine_start (args : Arguments) : Error := OK.

Section Lifecycle.

(** Declared in the arguments header, which is not part of the sources
    at hand. *)
Variable DEFAULT_INTERVAL : Z.
Variable EVENT_WALL : string.

(** [pthread_create_ok] tells whether [pthread_create] returned 0. *)
Definition start (args : Arguments) (pthread_create_ok : bool) (w : WallClock)
  : Error * WallClock :=
  let sample_idle_threads := (_wall args >=? 0) || String.eqb (_event args) EVENT_WALL in
  let interval := if _wall args >=? 0 then _wall args else args_interval args in
  let interval :=
    if interval =? 0 then
      if sample_idle_threads then wrap_long (DEFAULT_INTERVAL * 5) else DEFAULT_INTERVAL
    else interval in
  let w' := mkWallClock interval sample_idle_threads true true
              (if pthread_create_ok then true else _thread w) in
  if pthread_create_ok then (OK, w')
  else (Err "Unable to create timer thread", w').

End Lifecycle.


(** ** The invariant of handshakes that are never abandoned *)

(** A winner of the compare-and-swap that has not yet stored
    [_thread_data_ready]. *)
Definition in_flight (p : HandlerPc) : bool :=
  match p with HBuild | HPublish | HReady => true | _ => false end.

(** Program points of the handler at which its local [data] exists. *)
Definition built (p : HandlerPc) : bool :=
  match p with HPublish | HReady | HWaitStart | HWait _ => true | _ => false end.

Fixpoint winners_in_flight (hs : list Handler) : nat :=
  match hs with
  | [] => O
  | h :: hs' => (b2n (in_flight (h_pc h)) + winners_in_flight hs')%nat
  end.

(** Program points of [walkStack] from the opening of the gate to the end
    of the wait, and those of them after the last store of the arm phase. *)
Definition open_phase (p : WalkPc) : bool :=
  match p with
  | WSetWalked | WSetReady | WSend | WWaitStart | WWait _ => true
  | _ => false
  end.
Definition awaiting (p : WalkPc) : bool :=
  match p with WSend | WWaitStart | WWait _ => true | _ => false end.

(** The timer thread has neither abandoned a call nor faulted. *)
Definition on_track (p : WalkPc) : bool :=
  match p with WAbandon | WReturn false | WFault => false | _ => true end.

(** The pointer is the address of a [data] that has been built. *)
Definition points_to_built (hs : list Handler) (p : option nat) : Prop :=
  exists h hd, p = Some h /\ hs !! h = Some hd /\ h_data hd <> None.

Record handshake_inv (s : Sys) : Prop := mk_handshake_inv {
  inv_track : on_track (d_pc (driver s)) = true;
  inv_gate :
    _thread_data_settable (slot s) = true ->
    winners_in_flight (handlers s) = O /\ open_phase (d_pc (driver s)) = true;
  inv_single : (winners_in_flight (handlers s) <= 1)%nat;
  inv_phase :
    open_phase (d_pc (driver s)) = false -> winners_in_flight (handlers s) = O;
  inv_pub :
    open_phase (d_pc (driver s)) = true ->
    forall i hd, handlers s !! i = Some hd -> h_pc hd = HReady ->
    _thread_data (slot s) <> None;
  inv_seen :
    awaiting (d_pc (driver s)) = true -> _thread_data_ready (slot s) = true ->
    _thread_data (slot s) <> None /\ winners_in_flight (handlers s) = O
    /\ _thread_data_settable (slot s) = false;
  inv_load : d_pc (driver s) = WLoad -> _thread_data (slot s) <> None;
  inv_ptr :
    _thread_data (slot s) <> None -> points_to_built (handlers s) (_thread_data (slot s));
  inv_built :
    forall i hd, handlers s !! i = Some hd -> built (h_pc hd) = true -> h_data hd <> None;
  inv_rec :
    forall p, d_pc (driver s) = WRecord p -> points_to_built (handlers s) p }.

(** Program points of the handler inside its wait for [_stack_walked]:
    its frame is alive and its [data] is built. *)
Definition waiting (p : HandlerPc) : bool :=
  match p with HWaitStart | HWait _ => true | _ => false end.

(** Program points of [walkStack] between its store of [_stack_walked =
    false] and its store of [_stack_walked = true]. *)
Definition unreleased (p : WalkPc) : bool :=
  match p with
  | WSetReady | WSend | WWaitStart | WWait _ | WLoad | WRecord _ => true
  | _ => false
  end.

(** The pointer is the address of the [data] of an invocation that is
    waiting for the release. *)
Definition points_to_waiter (hs : list Handler) (p : option nat) : Prop :=
  exists h hd, p = Some h /\ hs !! h = Some hd /\ waiting (h_pc hd) = true.

(** What keeps the frame alive until [walkStack] has read it, in
    handshakes that are never abandoned. *)
Record live_inv (s : Sys) : Prop := mk_live_inv {
  live_walked :
    unreleased (d_pc (driver s)) = true -> _stack_walked (slot s) = false;
  live_pub :
    open_phase (d_pc (driver s)) = true ->
    forall i hd, handlers s !! i = Some hd -> h_pc hd = HReady ->
    _thread_data (slot s) = Some i;
  live_seen :
    awaiting (d_pc (driver s)) = true -> _thread_data_ready (slot s) = true ->
    points_to_waiter (handlers s) (_thread_data (slot s));
  live_load :
    d_pc (driver s) = WLoad -> points_to_waiter (handlers s) (_thread_data (slot s));
  live_rec :
    forall p, d_pc (driver s) = WRecord p -> points_to_waiter (handlers s) p }.

(** ** waitWhile, the whole loop *)

(** [waitWhile] run against the sequence of what its turns observe: the
    value of [condition()] and the clock read in that turn (the clock is
    read only when the condition holds).  [None] means the loop is still
    running when the observations end. *)
Fixpoint waitWhile (timeout_ns start : Z) (turns : list (bool * Z)) : option bool :=
  match turns with
  | [] => None
  | (condition, now) :: turns' =>
      match waitWhile_turn condition timeout_ns start now with
      | Some b => Some b
      | None => waitWhile timeout_ns start turns'
      end
  end.

(** A turn that neither ends the wait by its condition nor by the clock. *)
Definition keeps_waiting (timeout_ns start : Z) (turn : bool * Z) : Prop :=
  fst turn = true /\ (timeout_ns = -1 \/ wrap_long (snd turn - start) <= timeout_ns).

(** ** WallClock::timerLoop, the whole loop *)

(** What a turn of [while (_running)] reads from outside: the flag
    [_running] at the loop head, the volatile [_enabled], and the clock
    after the sampling loop. *)
Record TurnInput := mkTurnInput {
  running_now : bool;
  enabled_now : bool;
  time_now : Z }.

Section TimerLoopRun.

Variable World : Type.
Variable walkStack : Z -> World -> bool * World.
Variable threadState : Z -> World -> ThreadState.
Variable wc : WallClock.
Variable self : Z.
Variable thread_filter : ThreadFilter.

(** The loop from its first head on; the result is the state in which
    the loop is left and the arguments of its [OS::sleep] calls, in
    order.  [None] means the loop is still running when the inputs end,
    or a sampling loop ran out of fuel. *)
Fixpoint timerLoop (fuel : nat) (inputs : list TurnInput) (l : Loop World)
  : option (Loop World * list Z) :=
  match inputs with
  | [] => None
  | i :: inputs' =>
      if running_now i then
        match timerLoop_turn World walkStack threadState wc self thread_filter
                fuel (enabled_now i) (time_now i) l with
        | None => None
        | Some (l', d) =>
            match timerLoop fuel inputs' l' with
            | None => None
            | Some (l'', ds) => Some (l'', d :: ds)
            end
        end
      else Some (l, [])
  end.

(** The body of the loop run once for each of [inputs], with no test of
    [_running]: the state after these turns and the arguments of their
    [OS::sleep] calls. *)
Fixpoint timerLoop_turns (fuel : nat) (inputs : list TurnInput) (l : Loop World)
  : option (Loop World * list Z) :=
  match inputs with
  | [] => Some (l, [])
  | i :: inputs' =>
      match timerLoop_turn World walkStack threadState wc self thread_filter
              fuel (enabled_now i) (time_now i) l with
      | None => None
      | Some (l', d) =>
          match timerLoop_turns fuel inputs' l' with
          | None => None
          | Some (l'', ds) => Some (l'', d :: ds)
          end
      end
  end.

End TimerLoopRun.

(** ** More observations on executions *)

Definition is_release (e : Event) : bool :=
  match e with EvStoreWalked true => true | _ => false end.
Definition is_ready_store (e : Event) : bool :=
  match e with EvStoreReady true => true | _ => false end.
Definition is_publish (e : Event) : bool :=
  match e with EvStoreData (Some _) => true | _ => false end.
Definition is_signal (e : Event) : bool :=
  match e with EvSignal _ _ => true | _ => false end.

(** Handler invocations at program points selected by [f]. *)
Fixpoint count_pc (f : HandlerPc -> bool) (hs : list Handler) : nat :=
  match hs with
  | [] => O
  | h :: hs' => (b2n (f (h_pc h)) + count_pc f hs')%nat
  end.

(** Winners that have not stored their pointer yet, and winners that have
    stored the pointer but not the ready flag. *)
Definition before_publish (p : HandlerPc) : bool :=
  match p with HBuild | HPublish => true | _ => false end.
Definition before_ready (p : HandlerPc) : bool :=
  match p with HReady => true | _ => false end.

(** A ready flag the current call has seen, or can still see, and has not
    yet answered with a call of the recorder. *)
Definition unconsumed (s : Sys) : nat :=
  match d_pc (driver s) with
  | WLoad | WRecord _ => 1%nat
  | WSend | WWaitStart | WWait _ => b2n (_thread_data_ready (slot s))
  | _ => O
  end.

(** The counts of CAS wins [w], pointer stores [p], ready stores [r] and
    recorder calls [c] so far, against the state reached. *)
Definition pipeline (s : Sys) (w p r c : nat) : Prop :=
  w = (p + count_pc before_publish (handlers s))%nat /\
  p = (r + count_pc before_ready (handlers s))%nat /\
  (c + unconsumed s <= r)%nat.

(** Where one call of [walkStack] on [d_arg] stands, against the numbers
    of recorder calls [c] and of releases [r] it has made. *)
Definition call_progress (s : Sys) (c r : nat) : Prop :=
  match d_pc (driver s) with
  | WSetThreadId => c = O /\ r = O
  | WSetData | WSetSettable | WSetWalked | WSetReady | WSend | WWaitStart | WWait _ =>
      c = O /\ r = O /\ _thread_id (slot s) = d_arg (driver s)
  | WLoad | WRecord _ =>
      c = O /\ r = O /\ _thread_id (slot s) = d_arg (driver s)
      /\ _thread_data_ready (slot s) = true
  | WRelease =>
      c = 1%nat /\ r = O /\ _thread_id (slot s) = d_arg (driver s)
      /\ _thread_data_ready (slot s) = true
  | WReturn true =>
      c = 1%nat /\ r = 1%nat /\ _thread_id (slot s) = d_arg (driver s)
      /\ _thread_data_ready (slot s) = true /\ _stack_walked (slot s) = true
  | WIdle | WAbandon | WReturn false | WFault => True
  end.

(** Recorder calls are one ahead of releases exactly between the two. *)
Definition release_follows_record (s : Sys) (c r : nat) : Prop :=
  match d_pc (driver s) with
  | WRelease => c = S r
  | _ => c = r
  end.

(** The local [data] of an invocation, once built, holds the [ucontext]
    argument and the [JNIEnv] of that invocation. *)
Definition data_is_own (hd : Handler) : Prop :=
  h_data hd = None \/ h_data hd = Some (mkData (h_ucontext hd) (h_jni hd)).

(** The same invocation, one or more steps later. *)
Definition same_invocation (hd hd' : Handler) : Prop :=
  h_tid hd' = h_tid hd /\ h_ucontext hd' = h_ucontext hd /\ h_jni hd' = h_jni hd.


(** Every invocation's [data] is its own. *)
Definition data_all_own (hs : list Handler) : Prop :=
  forall h hd, hs !! h = Some hd -> data_is_own hd.

(** A recorder call that passes the configured interval, the thread state
    [walkStack] computes for the context it passes, and the context and
    [JNIEnv] of one handler invocation among [hs]. *)
Definition record_from
  (SYSCALL_SIZE : Z) (isSyscall findLibraryByAddress : Z -> bool) (wc : WallClock)
  (hs : list Handler) (e : Event) : Prop :=
  match e with
  | EvRecord uc interval state env =>
      interval = _interval wc /\
      state = (if _sample_idle_threads wc
               then fst (getThreadState SYSCALL_SIZE isSyscall findLibraryByAddress uc)
               else THREAD_UNKNOWN) /\
      exists h hd, hs !! h = Some hd /\ h_ucontext hd = uc /\ h_jni hd = env
  | _ => True
  end.


(** What holds of the handlers' frames in every execution: a [data] is
    its invocation's own; it exists exactly from its construction on; and
    an address that was stored into [_thread_data], or loaded from it, is
    that of a [data] that was built. *)
Record frames_inv (s : Sys) : Prop := mk_frames_inv {
  fr_own : data_all_own (handlers s);
  fr_built :
    forall i hd, handlers s !! i = Some hd -> built (h_pc hd) = true -> h_data hd <> None;
  fr_data :
    forall i hd, handlers s !! i = Some hd -> h_data hd <> None ->
    built (h_pc hd) = true \/ h_pc hd = HDone;
  fr_ptr :
    forall h, _thread_data (slot s) = Some h ->
    exists hd, handlers s !! h = Some hd /\ h_data hd <> None;
  fr_rec :
    forall h, d_pc (driver s) = WRecord (Some h) ->
    exists hd, handlers s !! h = Some hd /\ h_data hd <> None }.


(** ** Concrete platform and inputs used to exercise the model *)

(** An x86-64 like platform: a two-byte syscall instruction, found at one
    address only, and no library mapped below it. *)
Definition x86_SYSCALL_SIZE : Z := 2.
Definition x86_isSyscall (a : Z) : bool := a =? 0x7ffff7a01000.
Definition no_library (a : Z) : bool := false.

(** A thread interrupted just after the syscall instruction, with the
    return register holding EINTR. *)
Definition frame_after_syscall : StackFrame := mkFrame 0x7ffff7a01002 true.

(** A thread interrupted in ordinary code. *)
Definition frame_in_code : StackFrame := mkFrame 0x401010 false.

(** Arguments with a negative interval and an event no engine knows. *)
Definition bad_args : Arguments := mkArguments (-1) (-5) "no-such-event".

(** The engine before [start]. *)
Definition stopped : WallClock := mkWallClock 0 false false false false.

(** A test double for the timer loop: every [walkStack] fails and every
    thread is reported running. *)
Definition walk_fails (tid : Z) (w : unit) : bool * unit := (false, w).
Definition all_running (tid : Z) (w : unit) : ThreadState := THREAD_RUNNING.
Definition no_filter : ThreadFilter := mkThreadFilter false 0 (fun _ => true).

(** Idle sampling with a one microsecond interval. *)
Definition wall_1us : WallClock := mkWallClock 1000 true true true true.

(** Three threads, the cursor at the first; the timer thread is thread 1. *)
Definition three_threads : ThreadList := mkThreadList [1; 2; 3] 0.
Definition loop0 : Loop unit := mkLoop unit 0 three_threads tt.

(** Handshake inputs: the platform above, CPU sampling at 10 ms. *)
Definition cpu_10ms : WallClock := mkWallClock 10000000 false true true true.
Definition os_at (t : Z) : OSIn := mkOS true t.

(** [walkStack 7] up to the point where the gate is about to be opened. *)
Definition before_arm_write : list Action :=
  [ActCall 7; ActDriver (os_at 0); ActDriver (os_at 0)].

(** The rest of the arm phase and the signal; the signal is delivered and
    a second SIGVTALRM hits the same thread; both invocations pass the
    thread check and try the compare-and-swap. *)
Definition two_handlers_race : list Action :=
  [ActDriver (os_at 0); ActDriver (os_at 0); ActDriver (os_at 0);
   ActDeliver 7 frame_in_code 77; ActSpurious 7 frame_in_code 77;
   ActHandler 0 1; ActHandler 1 1; ActHandler 0 2; ActHandler 1 2].

(** [walkStack 7] up to the point where the signal is about to be sent. *)
Definition armed_for_7 : list Action :=
  [ActCall 7; ActDriver (os_at 0); ActDriver (os_at 0); ActDriver (os_at 0);
   ActDriver (os_at 0); ActDriver (os_at 0)].





(** A complete call of [walkStack] on [tid] that finds the thread alive
    but times out before the signal is delivered; the signal stays
    pending. *)
Definition call_times_out (tid t : Z) : list Action :=
  [ActCall tid; ActDriver (os_at t); ActDriver (os_at t); ActDriver (os_at t);
   ActDriver (os_at t); ActDriver (os_at t); ActDriver (os_at t); ActDriver (os_at t);
   ActDriver (os_at (t + 10000001)); ActDriver (os_at (t + 10000001))].

(** A complete, successful call of [walkStack] on [tid], served by handler
    invocation [h]. *)
Definition call_succeeds (tid : Z) (h : nat) (t : Z) : list Action :=
  [ActCall tid; ActDriver (os_at t); ActDriver (os_at t); ActDriver (os_at t);
   ActDriver (os_at t); ActDriver (os_at t); ActDriver (os_at t); ActDriver (os_at t);
   ActDeliver tid frame_in_code 99;
   ActHandler h t; ActHandler h t; ActHandler h t; ActHandler h t; ActHandler h t;
   ActDriver (os_at t); ActDriver (os_at t); ActDriver (os_at t); ActDriver (os_at t);
   ActHandler h t; ActHandler h t].

(** Thread 7 does not take its signal within 10 ms; thread 9 is sampled;
    thread 7 is targeted again, and the signal of the first call reaches
    it when the gate has just been opened: its handler passes the thread
    check.  No signal is spurious. *)
Definition stale_signal_meets_arm : list Action :=
  call_times_out 7 0 ++ call_succeeds 9 0 20000000
  ++ [ActCall 7; ActDriver (os_at 30000000); ActDriver (os_at 30000000);
      ActDriver (os_at 30000000); ActDeliver 7 frame_in_code 77;
      ActHandler 1 30000000].

(** That handler runs to its end. *)
Definition handler_runs_through : list Action :=
  [ActHandler 1 30000001; ActHandler 1 30000001; ActHandler 1 30000001;
   ActHandler 1 30000001; ActHandler 1 30000001; ActHandler 1 30000001].

(** The handler on thread 7 wins the compare-and-swap and is then held up
    for more than 10 ms; the timer thread abandons the call; the handler
    stores [_thread_data]; the timer thread arms the slot for thread 9;
    the handler stores [_thread_data_ready]; the timer thread sends the
    signal to thread 9, finds [_thread_data_ready] set and loads
    [_thread_data].  No signal is spurious. *)
Definition late_publication : list Action :=
  [ActCall 7; ActDriver (os_at 0); ActDriver (os_at 0); ActDriver (os_at 0);
   ActDriver (os_at 0); ActDriver (os_at 0); ActDriver (os_at 0); ActDriver (os_at 0);
   ActDeliver 7 frame_in_code 77; ActHandler 0 1; ActHandler 0 1; ActHandler 0 1;
   ActDriver (os_at 10000001); ActDriver (os_at 10000001);
   ActHandler 0 10000002;
   ActCall 9; ActDriver (os_at 10000002); ActDriver (os_at 10000002);
   ActDriver (os_at 10000002); ActDriver (os_at 10000002); ActDriver (os_at 10000002);
   ActHandler 0 10000003;
   ActDriver (os_at 10000003); ActDriver (os_at 10000003); ActDriver (os_at 10000003)].

(** The load and the use of what was loaded. *)
Definition load_and_use : list Action :=
  [ActDriver (os_at 10000003); ActDriver (os_at 10000003)].


(** A test double that logs the threads walked, every walk succeeding. *)
Definition walk_logged (tid : Z) (w : list Z) : bool * list Z := (true, tid :: w).
Definition logged_running (tid : Z) (w : list Z) : ThreadState := THREAD_RUNNING.

(** Twelve threads; the timer thread is thread 1. *)
Definition twelve_threads : ThreadList :=
  mkThreadList [1; 2; 3; 4; 5; 6; 7; 8; 9; 10; 11; 12] 0.

(** Two turns of the timer loop, the second with the engine disabled,
    then [stop]. *)
Definition two_turns_then_stop : list TurnInput :=
  [mkTurnInput true true 500; mkTurnInput true false 600; mkTurnInput false true 700].


(** [walkStack 9] from start to end, served by the handler on thread 9. *)
Definition sampled_9 : list Action :=
  [ActDriver (os_at 0); ActDriver (os_at 0); ActDriver (os_at 0);
   ActDriver (os_at 0); ActDriver (os_at 0); ActDriver (os_at 0); ActDriver (os_at 1);
   ActDeliver 9 frame_in_code 99;
   ActHandler 0 2; ActHandler 0 2; ActHandler 0 2; ActHandler 0 2; ActHandler 0 2;
   ActDriver (os_at 3); ActDriver (os_at 3); ActDriver (os_at 3); ActDriver (os_at 3)].

(** Handlers at work while the timer thread stands still: a stray signal
    on thread 9 and the steps of its handler. *)
Definition handlers_only : list Action :=
  [ActSpurious 9 frame_in_code 99; ActHandler 0 1; ActHandler 0 1; ActHandler 0 1;
   ActHandler 0 1; ActHandler 0 1; ActHandler 0 1].


(** The arm phase of [walkStack 9]. *)
Definition armed_for_9 : list Action :=
  [ActCall 9; ActDriver (os_at 0); ActDriver (os_at 0); ActDriver (os_at 0);
   ActDriver (os_at 0); ActDriver (os_at 0)].

(** The call of [walkStack 9] and all that happens during it. *)
Definition sampling_9 : list Action := ActCall 9 :: sampled_9.


(** The handler on thread 9 has published and waits; [walkStack] has
    recorded the sample and stored [_stack_walked = true]. *)
Definition released_9 : list Action :=
  [ActCall 9; ActDriver (os_at 0); ActDriver (os_at 0); ActDriver (os_at 0);
   ActDriver (os_at 0); ActDriver (os_at 0); ActDriver (os_at 0); ActDriver (os_at 1);
   ActDeliver 9 frame_in_code 99;
   ActHandler 0 2; ActHandler 0 2; ActHandler 0 2; ActHandler 0 2; ActHandler 0 2;
   ActHandler 0 2; ActHandler 0 2;
   ActDriver (os_at 3); ActDriver (os_at 3); ActDriver (os_at 3); ActDriver (os_at 3)].

(** Another signal arrives, then the waiting handler runs again. *)
Definition waiter_runs : list Action :=
  [ActSpurious 4 frame_in_code 44; ActHandler 1 5; ActHandler 0 6].





(** [walkStack 9] up to the point where it has loaded the pointer the
    handler on thread 9 published; the handler has stored the ready flag
    and is about to wait. *)
Definition loaded_9 : list Action :=
  [ActCall 9; ActDriver (os_at 0); ActDriver (os_at 0); ActDriver (os_at 0);
   ActDriver (os_at 0); ActDriver (os_at 0); ActDriver (os_at 0); ActDriver (os_at 1);
   ActDeliver 9 frame_in_code 99;
   ActHandler 0 2; ActHandler 0 2; ActHandler 0 2; ActHandler 0 2; ActHandler 0 2;
   ActDriver (os_at 3); ActDriver (os_at 3)].


(** * Facts *)

(** ** Machine integers *)

Lemma wrap_signed_small (w z : Z) :
  0 < w -> - 2 ^ (w - 1) <= z < 2 ^ (w - 1) -> wrap_signed w z = z.
Proof.
  intros Hw Hz. unfold wrap_signed.
  assert (E : 2 ^ w = 2 * 2 ^ (w - 1)).
  { replace w with (Z.succ (w - 1)) at 1 by lia. apply Z.pow_succ_r. lia. }
  rewrite Z.mod_small; lia.
Qed.

Lemma wrap_signed_add_l (w a b : Z) :
  wrap_signed w (wrap_signed w a + b) = wrap_signed w (a + b).
Proof.
  unfold wrap_signed. f_equal.
  replace ((a + 2 ^ (w - 1)) mod 2 ^ w - 2 ^ (w - 1) + b + 2 ^ (w - 1))
    with ((a + 2 ^ (w - 1)) mod 2 ^ w + b) by lia.
  rewrite Zplus_mod_idemp_l. f_equal. lia.
Qed.

Lemma wrap_int_small (z : Z) : - 2147483648 <= z <= INT_MAX -> wrap_int z = z.
Proof. intros H. apply wrap_signed_small; unfold INT_MAX in *; simpl; lia. Qed.

Lemma wrap_long_small (z : Z) : - 2 ^ 63 <= z < 2 ^ 63 -> wrap_long z = z.
Proof. intros H. apply wrap_signed_small; simpl; lia. Qed.

Lemma quot_within (a k : Z) :
  0 < k -> (0 <= a -> 0 <= Z.quot a k <= a) /\ (a <= 0 -> a <= Z.quot a k <= 0).
Proof.
  intros Hk. split; intros Ha.
  - rewrite Z.quot_div_nonneg by lia.
    assert (0 <= a / k) by (apply Z.div_pos; lia).
    assert (a / k <= a) by (apply Z.div_le_upper_bound; nia).
    lia.
  - assert (E : Z.quot a k = - Z.quot (- a) k) by (rewrite Z.quot_opp_l; lia).
    rewrite E, Z.quot_div_nonneg by lia.
    assert (0 <= (- a) / k) by (apply Z.div_pos; lia).
    assert ((- a) / k <= - a) by (apply Z.div_le_upper_bound; nia).
    lia.
Qed.

(** ** getThreadState *)

Section ClassifierFacts.

Variable SYSCALL_SIZE : Z.
Variable isSyscall : Z -> bool.
Variable findLibraryByAddress : Z -> bool.

Lemma prev_pc_differs (a : Z) :
  0 <= a < 2 ^ 64 -> 0 < SYSCALL_SIZE < 2 ^ 64 ->
  wrap_uintptr (a - SYSCALL_SIZE) <> a.
Proof.
  intros Ha Hs. unfold wrap_uintptr.
  destruct (Z.le_gt_cases SYSCALL_SIZE a) as [H | H].
  - rewrite Z.mod_small by lia. lia.
  - replace (a - SYSCALL_SIZE) with (a - SYSCALL_SIZE + 2 ^ 64 + (-1) * 2 ^ 64) by lia.
    rewrite Z_mod_plus_full. rewrite Z.mod_small by lia. lia.
Qed.

(** C2. [getThreadState] answers SLEEPING when the instruction at [pc]
    is the syscall instruction.  Otherwise it reads the instruction at
    [prev_pc = pc - SYSCALL_SIZE] exactly when the low twelve bits of
    [pc] are at least [SYSCALL_SIZE] or the library oracle maps
    [prev_pc], and answers SLEEPING exactly when that read is allowed,
    finds a syscall instruction and the interrupted-syscall check of the
    frame succeeds.  In every other case the answer is RUNNING. *)
Theorem getThreadState_classifies (frame : StackFrame) :
  0 <= pc frame < 2 ^ 64 ->
  0 < SYSCALL_SIZE < 2 ^ 64 ->
  let prev_pc := wrap_uintptr (pc frame - SYSCALL_SIZE) in
  let readable :=
    SYSCALL_SIZE <= Z.land (pc frame) 0xfff \/ findLibraryByAddress prev_pc = true in
  let result := getThreadState SYSCALL_SIZE isSyscall findLibraryByAddress frame in
  (isSyscall (pc frame) = true -> fst result = THREAD_SLEEPING) /\
  (In prev_pc (snd result) <-> isSyscall (pc frame) = false /\ readable) /\
  (isSyscall (pc frame) = false ->
     (fst result = THREAD_SLEEPING <->
      readable /\ isSyscall prev_pc = true /\ checkInterruptedSyscall frame = true)) /\
  (fst result <> THREAD_SLEEPING -> fst result = THREAD_RUNNING).
Proof.
  intros Hpc Hsz prev_pc readable result.
  assert (Hne : prev_pc <> pc frame) by (apply prev_pc_differs; assumption).
  subst result readable. unfold getThreadState. fold prev_pc.
  rewrite Z.geb_leb.
  destruct (isSyscall (pc frame)) eqn:Hsys; simpl.
  - intuition congruence.
  - destruct (SYSCALL_SIZE <=? Z.land (pc frame) 4095) eqn:Hpage;
      [ apply Z.leb_le in Hpage | apply Z.leb_gt in Hpage ];
      destruct (findLibraryByAddress prev_pc) eqn:Hlib;
      destruct (isSyscall prev_pc) eqn:Hprev;
      destruct (checkInterruptedSyscall frame) eqn:Hchk;
      simpl; intuition (congruence || lia).
Qed.

End ClassifierFacts.

Lemma getThreadState_classifies_witness :
  fst (getThreadState x86_SYSCALL_SIZE x86_isSyscall no_library frame_after_syscall)
    = THREAD_SLEEPING
  /\ fst (getThreadState x86_SYSCALL_SIZE x86_isSyscall no_library frame_in_code)
    = THREAD_RUNNING.
Proof.
  split.
  - apply (getThreadState_classifies x86_SYSCALL_SIZE x86_isSyscall no_library
             frame_after_syscall); [ simpl; lia | unfold x86_SYSCALL_SIZE; lia | reflexivity | ].
    split; [ | split ]; [ left; vm_compute; discriminate | reflexivity | reflexivity ].
  - apply (getThreadState_classifies x86_SYSCALL_SIZE x86_isSyscall no_library
             frame_in_code); [ simpl; lia | unfold x86_SYSCALL_SIZE; lia | ].
    vm_compute. discriminate.
Defined.

(** ** adjustInterval *)

Lemma adjustInterval_divisor (n : Z) :
  THREADS_PER_TICK < n -> n + THREADS_PER_TICK - 1 <= INT_MAX ->
  Z.quot (wrap_int (wrap_int (n + THREADS_PER_TICK) - 1)) THREADS_PER_TICK
  = (n + THREADS_PER_TICK - 1) / THREADS_PER_TICK.
Proof.
  unfold THREADS_PER_TICK, INT_MAX. intros Hn Hmax.
  replace (wrap_int (n + 8) - 1) with (wrap_int (n + 8) + -1) by lia.
  unfold wrap_int. rewrite wrap_signed_add_l.
  fold (wrap_int (n + 8 + -1)). rewrite wrap_int_small by (unfold INT_MAX; lia).
  replace (n + 8 + -1) with (n + 8 - 1) by lia.
  apply Z.quot_div_nonneg; lia.
Qed.

(** C8. [adjustInterval interval n] is [interval] when [n] is at most
    THREADS_PER_TICK = 8; for a larger thread count (one for which
    [n + THREADS_PER_TICK - 1] is still an [int]) it is [interval] divided,
    truncating, by [(n + THREADS_PER_TICK - 1) / THREADS_PER_TICK], and
    that divisor is the ceiling of [n / THREADS_PER_TICK]. *)
Theorem adjustInterval_spec (interval n : Z) :
  - 2 ^ 63 <= interval < 2 ^ 63 ->
  THREADS_PER_TICK = 8 /\
  (n <= THREADS_PER_TICK -> adjustInterval interval n = interval) /\
  (THREADS_PER_TICK < n -> n + THREADS_PER_TICK - 1 <= INT_MAX ->
   let k := (n + THREADS_PER_TICK - 1) / THREADS_PER_TICK in
   adjustInterval interval n = Z.quot interval k /\
   THREADS_PER_TICK * (k - 1) < n <= THREADS_PER_TICK * k).
Proof.
  intros Hi. split; [ reflexivity | split ].
  - intros Hn. unfold adjustInterval.
    destruct (n >? THREADS_PER_TICK) eqn:E; [ lia | reflexivity ].
  - intros Hn Hmax k. unfold adjustInterval.
    destruct (n >? THREADS_PER_TICK) eqn:E; [ | lia ].
    rewrite adjustInterval_divisor by assumption. fold k.
    assert (Hk : THREADS_PER_TICK * (k - 1) < n <= THREADS_PER_TICK * k).
    { subst k. unfold THREADS_PER_TICK in *.
      pose proof (Z.div_mod (n + 8 - 1) 8 ltac:(lia)) as Hdm.
      pose proof (Z.mod_pos_bound (n + 8 - 1) 8 ltac:(lia)) as Hmb.
      lia. }
    split; [ | exact Hk ].
    apply wrap_long_small.
    assert (0 < k) by (unfold THREADS_PER_TICK in *; lia).
    destruct (quot_within interval k ltac:(assumption)) as [Hp Hm].
    destruct (Z.le_gt_cases 0 interval); [ specialize (Hp ltac:(lia)) | specialize (Hm ltac:(lia)) ]; lia.
Qed.

Lemma adjustInterval_spec_witness :
  adjustInterval 10000000 8 = 10000000 /\
  adjustInterval 10000000 64 = Z.quot 10000000 8 /\
  adjustInterval 10000000 65 = Z.quot 10000000 9.
Proof.
  assert (R : - 2 ^ 63 <= 10000000 < 2 ^ 63) by lia.
  split; [ | split ].
  - destruct (adjustInterval_spec 10000000 8 R) as (_ & H & _).
    apply H. unfold THREADS_PER_TICK. lia.
  - destruct (adjustInterval_spec 10000000 64 R) as (_ & _ & H).
    apply H; unfold THREADS_PER_TICK, INT_MAX; lia.
  - destruct (adjustInterval_spec 10000000 65 R) as (_ & _ & H).
    apply H; unfold THREADS_PER_TICK, INT_MAX; lia.
Defined.

(** The population-scaling scenario: 64 threads at 10 ms give 1.25 ms. *)
Example adjustInterval_64_threads : adjustInterval 10000000 64 = 1250000.
Proof. reflexivity. Qed.

(** ** Lifecycle *)

(** C9, as stated, fails: given a negative interval and an unknown
    event, with a timer thread that can be created, [start] answers OK,
    stores the negative interval, installs the handler and sets the
    running flag. *)
Lemma start_accepts_bad_args :
  Engine_check bad_args = OK /\
  start 10000000 "wall" bad_args true stopped
  = (OK, mkWallClock (-5) false true true true) /\
  snd (start 10000000 "wall" bad_args true stopped) <> stopped.
Proof. repeat split. discriminate. Qed.

(** C9, amended. [start] validates neither the interval nor the event:
    whatever the arguments, [Engine::check] answers OK and [start]
    resolves the idle-sampling flag and the interval (a positive [wall]
    is the interval; [wall = 0] gives five times the default; without
    [wall] the [interval] argument is taken, a zero one being replaced by
    the default, times five for the wall event), installs the signal
    handler and sets the running flag; [start] fails exactly when the
    timer thread cannot be created, with the error "Unable to create
    timer thread", and is OK otherwise. *)
Theorem start_fails_only_on_thread_creation
  (DEFAULT_INTERVAL : Z) (EVENT_WALL : string)
  (args : Arguments) (pthread_create_ok : bool) (w : WallClock) :
  let r := start DEFAULT_INTERVAL EVENT_WALL args pthread_create_ok w in
  Engine_check args = OK /\
  fst r = (if pthread_create_ok then OK else Err "Unable to create timer thread") /\
  (fst r = OK <-> pthread_create_ok = true) /\
  _running (snd r) = true /\
  sigvtalrm_installed (snd r) = true /\
  _sample_idle_threads (snd r)
  = ((_wall args >=? 0) || String.eqb (_event args) EVENT_WALL) /\
  _interval (snd r)
  = (if 0 <? _wall args then _wall args
     else if _wall args =? 0 then wrap_long (DEFAULT_INTERVAL * 5)
     else if negb (args_interval args =? 0) then args_interval args
     else if String.eqb (_event args) EVENT_WALL then wrap_long (DEFAULT_INTERVAL * 5)
     else DEFAULT_INTERVAL) /\
  _thread (snd r) = (if pthread_create_ok then true else _thread w).
Proof.
  unfold start.
  assert (Hi :
    (let sample_idle_threads := (_wall args >=? 0) || String.eqb (_event args) EVENT_WALL in
     let interval := if _wall args >=? 0 then _wall args else args_interval args in
     if interval =? 0
     then if sample_idle_threads then wrap_long (DEFAULT_INTERVAL * 5) else DEFAULT_INTERVAL
     else interval)
    = (if 0 <? _wall args then _wall args
       else if _wall args =? 0 then wrap_long (DEFAULT_INTERVAL * 5)
       else if negb (args_interval args =? 0) then args_interval args
       else if String.eqb (_event args) EVENT_WALL then wrap_long (DEFAULT_INTERVAL * 5)
       else DEFAULT_INTERVAL)).
  { cbv zeta.
    destruct (Z.geb_spec (_wall args) 0) as [Hw | Hw];
      destruct (Z.ltb_spec 0 (_wall args)) as [Hp | Hp]; try lia; simpl orb.
    - destruct (Z.eqb_spec (_wall args) 0); [ lia | reflexivity ].
    - destruct (Z.eqb_spec (_wall args) 0); [ reflexivity | lia ].
    - destruct (Z.eqb_spec (_wall args) 0); [ lia | ].
      destruct (args_interval args =? 0); reflexivity. }
  cbv zeta in Hi.
  destruct pthread_create_ok; simpl; rewrite Hi; repeat split; congruence.
Qed.

(** ** The timer loop *)

Section TimerLoopFacts.

Variable World : Type.
Variable walkStack : Z -> World -> bool * World.
Variable threadState : Z -> World -> ThreadState.
Variable wc : WallClock.
Variable self : Z.
Variable thread_filter : ThreadFilter.

Local Abbreviation turn := (sample_turn World walkStack threadState wc self thread_filter).
Local Abbreviation loop := (sample_loop World walkStack threadState wc self thread_filter).

Lemma sample_turn_continue count l w count' l' w' :
  turn count l w = (Continue, count', l', w') ->
  S (remaining l') = remaining l.
Proof.
  unfold turn, sample_turn, tl_next, remaining.
  destruct (tids l !! cursor l) as [t |] eqn:Hl.
  - apply lookup_lt_Some in Hl.
    destruct (t =? -1); [ discriminate | ].
    destruct ((t =? self) || (enabled thread_filter && negb (accept thread_filter t)));
      [ intros [= <- <- <-]; simpl; lia | ].
    destruct (_sample_idle_threads wc || is_running (threadState t w)).
    + destruct (walkStack t w). intros [= <- <- <-]. simpl. lia.
    + intros [= <- <- <-]. simpl. lia.
  - simpl. discriminate.
Qed.

(** The sampling loop returns: every turn that does not leave the loop
    consumes one entry of the thread list. *)
Lemma sample_loop_returns (n : nat) :
  forall count l w, (remaining l <= n)%nat ->
  exists r, loop (S n) count l w = Some r.
Proof.
  induction n as [| n IH]; intros count l w Hrem; simpl.
  - destruct (count <? THREADS_PER_TICK); [ | eauto ].
    destruct (sample_turn World walkStack threadState wc self thread_filter count l w)
      as [[[[] c] l'] w'] eqn:Ht; [ eauto | ].
    apply sample_turn_continue in Ht. lia.
  - destruct (count <? THREADS_PER_TICK) eqn:Hc; [ | eauto ].
    destruct (sample_turn World walkStack threadState wc self thread_filter count l w)
      as [[[[] c] l'] w'] eqn:Ht; [ eauto | ].
    apply sample_turn_continue in Ht.
    destruct (IH c l' w' ltac:(lia)) as [r Hr]. exists r.
    simpl in Hr. exact Hr.
Qed.


(** C10, amended. MIN_INTERVAL is 100 microseconds (100000 ns), and in
    idle-sampling mode every turn of the timer loop taken with the
    engine enabled sleeps for at least MIN_INTERVAL: when the slack
    [next_cycle_time - now] exceeds MIN_INTERVAL the loop sleeps for the
    slack, otherwise it sets [next_cycle_time] to [now + MIN_INTERVAL]
    and sleeps exactly MIN_INTERVAL.  Such a turn always completes. *)
Theorem enabled_idle_turn_sleeps_MIN_INTERVAL (current_time : Z) (l : Loop World) :
  _sample_idle_threads wc = true ->
  let iteration fuel :=
    timerLoop_turn World walkStack threadState wc self thread_filter
      fuel true current_time l in
  let estimated_thread_count :=
    if enabled thread_filter then size thread_filter
    else tl_size (thread_list World l) in
  let next_cycle :=
    wrap_long (next_cycle_time World l
               + adjustInterval (_interval wc) estimated_thread_count) in
  let slack := wrap_long (next_cycle - current_time) in
  MIN_INTERVAL = 100 * 1000 /\
  (exists l' d, iteration (S (remaining (thread_list World l))) = Some (l', d)) /\
  (forall fuel l' d, iteration fuel = Some (l', d) ->
     MIN_INTERVAL <= d /\
     (MIN_INTERVAL < slack -> d = slack /\ next_cycle_time World l' = next_cycle) /\
     (slack <= MIN_INTERVAL ->
        d = MIN_INTERVAL /\
        next_cycle_time World l' = wrap_long (current_time + MIN_INTERVAL))).
Proof.
  intros Hidle iteration est next_cycle slack.
  split; [ reflexivity | split ].
  - destruct (sample_loop_returns (remaining (thread_list World l)) 0
                (thread_list World l) (world World l) ltac:(lia))
      as [[[c l1] w1] Hr].
    subst iteration. unfold timerLoop_turn. cbv beta. simpl negb. cbv iota.
    rewrite Hr, Hidle.
    destruct (_ >? MIN_INTERVAL); eauto.
  - intros fuel l' d. subst iteration. unfold timerLoop_turn.
    cbv beta. simpl negb. cbv iota. rewrite Hidle.
    destruct (sample_loop _ _ _ _ _ _ _ _ _ _) as [[[c l1] w1] |]; [ | discriminate ].
    fold est. fold next_cycle. fold slack.
    destruct (slack >? MIN_INTERVAL) eqn:Hs; intros [= <- <-]; simpl;
      repeat split; try lia; intros; lia.
Qed.

End TimerLoopFacts.

Lemma enabled_idle_turn_sleeps_MIN_INTERVAL_witness :
  fst <$> timerLoop_turn unit walk_fails all_running wall_1us 1 no_filter 4 true 500 loop0
    = Some (mkLoop unit 100500 (mkThreadList [1; 2; 3] 0) tt)
  /\ MIN_INTERVAL <= 100000.
Proof.
  split; [ reflexivity | ].
  destruct (enabled_idle_turn_sleeps_MIN_INTERVAL unit walk_fails all_running wall_1us 1
              no_filter 500 loop0 eq_refl) as (_ & _ & H).
  apply (H 4%nat (mkLoop unit 100500 (mkThreadList [1; 2; 3] 0) tt) 100000).
  reflexivity.
Defined.

(** C10, as stated, fails: in idle-sampling mode with a one microsecond
    interval, a turn taken while the engine is disabled sleeps for the
    interval, which is below MIN_INTERVAL. *)
Lemma disabled_turn_sleeps_below_MIN_INTERVAL :
  _sample_idle_threads wall_1us = true /\
  timerLoop_turn unit walk_fails all_running wall_1us 1 no_filter 4 false 500 loop0
    = Some (loop0, 1000) /\
  1000 < MIN_INTERVAL.
Proof. repeat split. Qed.

(** ** The handshake *)

Lemma count_ev_app (f : Event -> bool) (l1 l2 : list Event) :
  count_ev f (l1 ++ l2) = (count_ev f l1 + count_ev f l2)%nat.
Proof. induction l1 as [| e l1 IH]; simpl; [ reflexivity | rewrite IH; lia ]. Qed.

Section HandshakeFacts.

Variable SYSCALL_SIZE : Z.
Variable isSyscall : Z -> bool.
Variable findLibraryByAddress : Z -> bool.
Variable wc : WallClock.

Local Abbreviation walk := (walkStack_step SYSCALL_SIZE isSyscall findLibraryByAddress wc).
Local Abbreviation stp := (step SYSCALL_SIZE isSyscall findLibraryByAddress wc).
Local Abbreviation run := (exec SYSCALL_SIZE isSyscall findLibraryByAddress wc).

Lemma exec_cons (a : Action) (sch : list Action) (s : Sys) :
  run (a :: sch) s
  = (fst (run sch (fst (stp a s))), snd (stp a s) ++ snd (run sch (fst (stp a s)))).
Proof.
  simpl. destruct (stp a s) as [s1 e1]. simpl. destruct (run sch s1) as [s2 e2]. reflexivity.
Qed.

Lemma exec_app (l1 l2 : list Action) (s : Sys) :
  run (l1 ++ l2) s
  = (fst (run l2 (fst (run l1 s))), snd (run l1 s) ++ snd (run l2 (fst (run l1 s)))).
Proof.
  revert s. induction l1 as [| a l1 IH]; intros s.
  - simpl. destruct (run l2 s). reflexivity.
  - rewrite <- app_comm_cons, !exec_cons, IH. simpl. rewrite app_assoc. reflexivity.
Qed.

(** *** The gate: who may flip [_thread_data_settable] *)

Lemma handler_step_budget (now : Z) (h : nat) (hd : Handler) (sl : Slot) :
  let r := signalHandler_step now h hd sl in
  (b2n (_thread_data_settable (snd (fst r))) + count_ev is_cas_win (snd r)
   = b2n (_thread_data_settable sl))%nat
  /\ count_ev is_arm (snd r) = O.
Proof.
  unfold signalHandler_step.
  destruct (h_pc hd); simpl; try (split; reflexivity || lia).
  - destruct (h_tid hd =? _thread_id sl); simpl; split; lia.
  - destruct (_thread_data_settable sl) eqn:E; simpl; rewrite ?E; simpl; split; lia.
  - destruct (waitWhile_turn _ _ _ _); simpl; split; lia.
Qed.

Lemma walk_step_budget (os : OSIn) (s : Sys) :
  let r := walk os s in
  (b2n (_thread_data_settable (slot (fst r))) + count_ev is_cas_win (snd r)
   <= b2n (_thread_data_settable (slot s)) + count_ev is_arm (snd r))%nat.
Proof.
  unfold walkStack_step.
  destruct (d_pc (driver s)); simpl; try lia.
  - destruct (signal_ok os); simpl; lia.
  - destruct (waitWhile_turn _ _ _ _) as [[] |]; simpl; lia.
  - destruct (deref _ _); simpl; lia.
Qed.

Lemma step_budget (a : Action) (s : Sys) :
  (b2n (_thread_data_settable (slot (fst (stp a s)))) + count_ev is_cas_win (snd (stp a s))
   <= b2n (_thread_data_settable (slot s)) + count_ev is_arm (snd (stp a s)))%nat.
Proof.
  destruct a as [tid | os | tid uc env | tid uc env | h now]; simpl.
  - destruct (d_pc (driver s)); simpl; lia.
  - apply walk_step_budget.
  - destruct (existsb _ _); simpl; lia.
  - lia.
  - destruct (handlers s !! h) as [hd |]; simpl; [ | lia ].
    pose proof (handler_step_budget now h hd (slot s)) as [H1 H2].
    destruct (signalHandler_step now h hd (slot s)) as [[hd' sl'] evs].
    simpl in *. lia.
Qed.

(** Along any execution, the successful compare-and-swaps are paid for by
    arm writes, or by the gate having been open at the start. *)
Lemma exec_budget (sch : list Action) :
  forall s,
  (b2n (_thread_data_settable (slot (fst (run sch s)))) + count_ev is_cas_win (snd (run sch s))
   <= b2n (_thread_data_settable (slot s)) + count_ev is_arm (snd (run sch s)))%nat.
Proof.
  induction sch as [| a sch IH]; intros s.
  - simpl. lia.
  - rewrite exec_cons. simpl. rewrite !count_ev_app.
    pose proof (step_budget a s). pose proof (IH (fst (stp a s))). lia.
Qed.


Lemma cas_on_closed_gate (now : Z) (h : nat) (hd : Handler) (sl : Slot) :
  h_pc hd = HCas -> _thread_data_settable sl = false ->
  signalHandler_step now h hd sl = (h_goto HDone hd, sl, [EvCas h false]).
Proof. intros Hpc Hg. unfold signalHandler_step. rewrite Hpc, Hg. reflexivity. Qed.

(** C1. Within one arm phase, that is from the step of [walkStack] that
    writes [_thread_data_settable = true] up to (not including) the next
    such write, at most one handler invocation succeeds in the
    compare-and-swap of the gate from true to false.  Once one has
    succeeded, any other invocation that reaches the compare-and-swap in
    that phase fails it and returns at once, leaving the slot as it is. *)
Theorem at_most_one_cas_win_per_arm_phase (s : Sys) (os : OSIn) (sch : list Action) :
  d_pc (driver s) = WSetSettable ->
  let armed := fst (stp (ActDriver os) s) in
  count_ev is_arm (snd (run sch armed)) = O ->
  _thread_data_settable (slot armed) = true /\
  (count_ev is_cas_win (snd (run sch armed)) <= 1)%nat /\
  (forall sch1 sch2 h now hd,
     sch = sch1 ++ ActHandler h now :: sch2 ->
     count_ev is_cas_win (snd (run sch1 armed)) = 1%nat ->
     let s1 := fst (run sch1 armed) in
     handlers s1 !! h = Some hd ->
     h_pc hd = HCas ->
     stp (ActHandler h now) s1
     = (mkSys (slot s1) (driver s1) (<[h := h_goto HDone hd]> (handlers s1)) (pending s1),
        [EvCas h false])).
Proof.
  intros Hpc armed Harm.
  assert (Hopen : _thread_data_settable (slot armed) = true).
  { subst armed. simpl. unfold walkStack_step. rewrite Hpc. reflexivity. }
  split; [ exact Hopen | split ].
  - pose proof (exec_budget sch armed) as B. rewrite Harm, Hopen in B.
    simpl in B. lia.
  - intros sch1 sch2 h now hd -> Hwin s1 Hh Hcas.
    rewrite exec_app in Harm. simpl snd in Harm. rewrite count_ev_app in Harm.
    pose proof (exec_budget sch1 armed) as B. fold s1 in B.
    rewrite Hwin, Hopen in B. simpl in B.
    assert (Hclosed : _thread_data_settable (slot s1) = false).
    { destruct (_thread_data_settable (slot s1)); [ simpl in B; lia | reflexivity ]. }
    simpl. rewrite Hh, (cas_on_closed_gate now h hd (slot s1) Hcas Hclosed). reflexivity.
Qed.


(** *** Early exits of the handler *)



(** *** The handler's wait *)

Lemma waitWhile_no_timeout (condition : bool) (start now : Z) :
  waitWhile_turn condition (-1) start now = if condition then None else Some true.
Proof. unfold waitWhile_turn. destruct condition; reflexivity. Qed.

Lemma walk_keeps_handlers (os : OSIn) (s : Sys) : handlers (fst (walk os s)) = handlers s.
Proof.
  unfold walkStack_step. destruct (d_pc (driver s)); simpl; try reflexivity.
  - destruct (signal_ok os); reflexivity.
  - destruct (waitWhile_turn _ _ _ _) as [[] |]; reflexivity.
  - destruct (deref _ _); reflexivity.
Qed.

(** A step leaves an invocation alone unless it is that invocation's own. *)
Lemma handler_after_step (a : Action) (s : Sys) (h : nat) (hd : Handler) :
  handlers s !! h = Some hd ->
  exists hd',
    handlers (fst (stp a s)) !! h = Some hd' /\
    (hd' = hd \/
     exists now, a = ActHandler h now /\
                 hd' = fst (fst (signalHandler_step now h hd (slot s)))).
Proof.
  intros Hh.
  assert (Hlt : (h < length (handlers s))%nat) by (eapply lookup_lt_Some; eassumption).
  destruct a as [tid | os | tid uc env | tid uc env | h' now]; simpl.
  - exists hd. split; [ | left; reflexivity ].
    destruct (d_pc (driver s)); exact Hh.
  - exists hd. split; [ | left; reflexivity ].
    rewrite walk_keeps_handlers. exact Hh.
  - exists hd. split; [ | left; reflexivity ].
    destruct (existsb _ _); simpl; [ rewrite lookup_app_l by exact Hlt | ]; exact Hh.
  - exists hd. split; [ | left; reflexivity ].
    rewrite lookup_app_l by exact Hlt. exact Hh.
  - destruct (decide (h' = h)) as [-> | Hne].
    + rewrite Hh.
      destruct (signalHandler_step now h hd (slot s)) as [[hd' sl'] evs] eqn:E.
      exists hd'. simpl. split; [ apply list_lookup_insert_eq; exact Hlt | ].
      right. exists now. rewrite E. split; reflexivity.
    + exists hd. split; [ | left; reflexivity ].
      destruct (handlers s !! h') as [hd0 |]; [ | exact Hh ].
      destruct (signalHandler_step now h' hd0 (slot s)) as [[hd' sl'] evs].
      simpl. rewrite list_lookup_insert_ne by exact Hne. exact Hh.
Qed.


Lemma done_step (now : Z) (h : nat) (hd : Handler) (sl : Slot) :
  h_pc hd = HDone -> fst (fst (signalHandler_step now h hd sl)) = hd.
Proof. intros Hpc. unfold signalHandler_step. rewrite Hpc. reflexivity. Qed.

Lemma done_persists (sch : list Action) :
  forall s h hd,
  handlers s !! h = Some hd -> h_pc hd = HDone ->
  handlers (fst (run sch s)) !! h = Some hd.
Proof.
  induction sch as [| a sch IH]; intros s h hd Hh Hpc; [ exact Hh | ].
  rewrite exec_cons. simpl fst.
  destruct (handler_after_step a s h hd Hh) as (hd1 & H1 & [-> | (now & -> & ->)]).
  - apply IH; assumption.
  - rewrite done_step in H1 by exact Hpc. apply IH; assumption.
Qed.




(** *** Abandoned handshakes *)









(** *** Handshakes that are never abandoned *)

Lemma winners_in_flight_app (hs1 hs2 : list Handler) :
  winners_in_flight (hs1 ++ hs2)
  = (winners_in_flight hs1 + winners_in_flight hs2)%nat.
Proof. induction hs1 as [| h hs1 IH]; simpl; [ reflexivity | rewrite IH; lia ]. Qed.

Lemma winners_in_flight_insert (hs : list Handler) :
  forall h hd hd', hs !! h = Some hd ->
  (winners_in_flight (<[h := hd']> hs) + b2n (in_flight (h_pc hd))
   = winners_in_flight hs + b2n (in_flight (h_pc hd')))%nat.
Proof.
  induction hs as [| x hs IH]; intros h hd hd' Hh; [ discriminate | ].
  destruct h as [| h]; simpl in *.
  - injection Hh as ->. lia.
  - specialize (IH h hd hd' Hh). lia.
Qed.

Lemma in_flight_counted (hs : list Handler) :
  forall h hd, hs !! h = Some hd ->
  (b2n (in_flight (h_pc hd)) <= winners_in_flight hs)%nat.
Proof.
  induction hs as [| x hs IH]; intros h hd Hh; [ discriminate | ].
  destruct h as [| h]; simpl in *.
  - injection Hh as ->. lia.
  - specialize (IH h hd Hh). lia.
Qed.

Lemma points_to_built_app (hs : list Handler) (x : Handler) (p : option nat) :
  points_to_built hs p -> points_to_built (hs ++ [x]) p.
Proof.
  intros (h & hd & -> & Hh & Hd). exists h, hd.
  split; [ reflexivity | split; [ apply lookup_app_l_Some; exact Hh | exact Hd ] ].
Qed.

Lemma points_to_built_insert (hs : list Handler) (h : nat) (hd hd' : Handler)
  (p : option nat) :
  hs !! h = Some hd -> (h_data hd <> None -> h_data hd' <> None) ->
  points_to_built hs p -> points_to_built (<[h := hd']> hs) p.
Proof.
  intros Hh Hmono (i & x & -> & Hi & Hx).
  assert (Hlt : (h < length hs)%nat) by (eapply lookup_lt_Some; eassumption).
  destruct (decide (h = i)) as [-> | Hne].
  - exists i, hd'. rewrite list_lookup_insert_eq by exact Hlt.
    rewrite Hh in Hi. injection Hi as <-. auto.
  - exists i, x. rewrite list_lookup_insert_ne by exact Hne. auto.
Qed.

Lemma inv_invoke (tid : Z) (uc : StackFrame) (env : Z) (s : Sys) (pd : list Z) :
  handshake_inv s ->
  handshake_inv (invoke tid uc env (mkSys (slot s) (driver s) (handlers s) pd)).
Proof.
  intros [Ht Hg Hs Hp Hpub Hseen Hl Hptr Hb Hr].
  unfold invoke. constructor; simpl;
    rewrite ?winners_in_flight_app; simpl; rewrite ?Nat.add_0_r; auto.
  - intros Ho i hd Hi Hpc. apply lookup_snoc_Some in Hi as [[_ Hi] | [_ <-]].
    + eapply Hpub; eassumption.
    + discriminate.
  - intros Hd. apply points_to_built_app. auto.
  - intros i hd Hi Hbuilt. apply lookup_snoc_Some in Hi as [[_ Hi] | [_ <-]].
    + eapply Hb; eassumption.
    + discriminate.
  - intros p Hp'. apply points_to_built_app. auto.
Qed.

Lemma inv_call (thread_id : Z) (s : Sys) :
  handshake_inv s -> handshake_inv (fst (stp (ActCall thread_id) s)).
Proof.
  intros Hinv. pose proof Hinv as [Ht Hg Hs Hp Hpub Hseen Hl Hptr Hb Hr]. simpl.
  destruct (d_pc (driver s)) as [| | | | | | | | | | | | | b |] eqn:Hpc;
    try exact Hinv; simpl.
  - constructor; simpl; auto; try discriminate;
      intros Hgate; destruct (Hg Hgate) as [_ ?]; discriminate.
  - constructor; simpl; auto; try discriminate;
      intros Hgate; destruct (Hg Hgate) as [_ ?]; discriminate.
Qed.


Lemma wait_returns_true (ready : bool) (timeout_ns start now : Z) :
  waitWhile_turn (negb ready) timeout_ns start now = Some true -> ready = true.
Proof.
  unfold waitWhile_turn. destruct ready; simpl; [ reflexivity | ].
  destruct (_ && _); discriminate.
Qed.

Lemma no_winner_at_HReady (hs : list Handler) (i : nat) (hd : Handler) :
  winners_in_flight hs = O -> hs !! i = Some hd -> h_pc hd <> HReady.
Proof.
  intros H0 Hi Hpc. pose proof (in_flight_counted hs i hd Hi) as Hc.
  rewrite Hpc, H0 in Hc. simpl in Hc. lia.
Qed.

Ltac settle_fields Hpc Hgate1 :=
  constructor; simpl; rewrite ?Hpc; simpl;
  try solve [ auto | intros; discriminate | intros; congruence
            | let H := fresh in intros H; contradiction
            | let H := fresh in intros H; discriminate (Hgate1 H) ].

Lemma waiter_deref (s : Sys) (p : option nat) :
  handshake_inv s -> points_to_waiter (handlers s) p ->
  exists d, deref (handlers s) p = Some d.
Proof.
  intros Hinv (h & hd & -> & Hh & Hw).
  assert (Hd : h_data hd <> None).
  { eapply (inv_built s Hinv); [ exact Hh | ]. destruct (h_pc hd); auto; discriminate. }
  unfold deref. rewrite Hh.
  destruct (h_data hd) as [d |]; [ | contradiction ].
  exists d. destruct (h_pc hd); auto; discriminate.
Qed.

Lemma inv_walk (os : OSIn) (s : Sys) :
  handshake_inv s ->
  live_inv s ->
  d_pc (driver (fst (walk os s))) <> WAbandon ->
  handshake_inv (fst (walk os s)).
Proof.
  intros Hinv Hlive. pose proof Hinv as [Ht Hg Hs Hp Hpub Hseen Hl Hptr Hb Hr].
  assert (Hgate1 : _thread_data_settable (slot s) = true ->
                   open_phase (d_pc (driver s)) = true) by (intros H; apply Hg; exact H).
  unfold walkStack_step.
  destruct (d_pc (driver s)) as [| | | | | | | | start | | data | | | b |] eqn:Hpc;
    simpl in *; try (intros _; exact Hinv).
  - (* WSetThreadId *) intros _. settle_fields Hpc Hgate1.
  - (* WSetData *) intros _. settle_fields Hpc Hgate1.
  - (* WSetSettable: no winner is in flight when the gate opens *)
    intros _. settle_fields Hpc Hgate1.
    intros _ i hd Hi Hr'. exfalso.
    eapply no_winner_at_HReady; [ apply Hp; reflexivity | exact Hi | exact Hr' ].
  - (* WSetWalked *) intros _. settle_fields Hpc Hgate1.
  - (* WSetReady *) intros _. settle_fields Hpc Hgate1.
  - (* WSend *)
    destruct (signal_ok os); simpl; intros Hna; [ | contradiction ].
    settle_fields Hpc Hgate1.
  - (* WWaitStart *) intros _. settle_fields Hpc Hgate1.
  - (* WWait: the wait ends on a flag that a winner of this phase set *)
    destruct (waitWhile_turn _ _ _ _) as [[] |] eqn:Hw; simpl; intros Hna;
      [ | contradiction | exact Hinv ].
    apply wait_returns_true in Hw.
    destruct (Hseen eq_refl Hw) as (Hd & Hn & Hclosed).
    settle_fields Hpc Hgate1.
  - (* WLoad *)
    intros _. settle_fields Hpc Hgate1.
    intros p [= <-]. auto.
  - (* WRecord *)
    destruct (waiter_deref s data Hinv (live_rec s Hlive data Hpc)) as [d ->].
    simpl. intros _. settle_fields Hpc Hgate1.
  - (* WRelease *) intros _. settle_fields Hpc Hgate1.
  - (* WAbandon *) discriminate.
Qed.

Lemma awaiting_open_phase (p : WalkPc) : awaiting p = true -> open_phase p = true.
Proof. destruct p; simpl; auto. Qed.

(** A handler step that touches neither the slot nor the count of winners
    in flight. *)
Lemma inv_private_move (s : Sys) (h : nat) (hd hd' : Handler) :
  handshake_inv s ->
  handlers s !! h = Some hd ->
  in_flight (h_pc hd') = in_flight (h_pc hd) ->
  (h_pc hd' = HReady -> h_pc hd = HReady) ->
  (h_data hd <> None -> h_data hd' <> None) ->
  (built (h_pc hd') = true -> h_data hd' <> None) ->
  handshake_inv (mkSys (slot s) (driver s) (<[h := hd']> (handlers s)) (pending s)).
Proof.
  intros [Ht Hg Hs Hp Hpub Hseen Hl Hptr Hb Hr] Hh Hfl Hrd Hmono Hbuilt.
  pose proof (winners_in_flight_insert (handlers s) h hd hd' Hh) as HW.
  rewrite Hfl in HW.
  assert (HW' : winners_in_flight (<[h := hd']> (handlers s))
                = winners_in_flight (handlers s)) by lia.
  constructor; simpl; rewrite ?HW'; auto.
  - intros Ho i x Hi Hx.
    apply list_lookup_insert_Some in Hi as [(<- & <- & _) | (Hne & Hi)].
    + eapply Hpub; [ exact Ho | exact Hh | auto ].
    + eapply Hpub; eassumption.
  - intros Hd. eapply points_to_built_insert; eauto.
  - intros i x Hi Hx.
    apply list_lookup_insert_Some in Hi as [(<- & <- & _) | (Hne & Hi)]; eauto.
  - intros p Hp'. eapply points_to_built_insert; eauto.
Qed.

Lemma inv_handler (h : nat) (now : Z) (s : Sys) :
  handshake_inv s -> handshake_inv (fst (stp (ActHandler h now) s)).
Proof.
  intros Hinv. pose proof Hinv as [Ht Hg Hs Hp Hpub Hseen Hl Hptr Hb Hr].
  simpl. destruct (handlers s !! h) as [hd |] eqn:Hh; [ | exact Hinv ].
  assert (Hgate0 : _thread_data_settable (slot s) = true ->
                   winners_in_flight (handlers s) = O) by (intros H; apply Hg; exact H).
  assert (Hgate1 : _thread_data_settable (slot s) = true ->
                   open_phase (d_pc (driver s)) = true) by (intros H; apply Hg; exact H).
  pose proof (in_flight_counted _ _ _ Hh) as Hc.
  pose proof (fun hd' => winners_in_flight_insert (handlers s) h hd hd' Hh) as HW.
  assert (Hlook : forall hd' i x,
            <[h := hd']> (handlers s) !! i = Some x ->
            (i = h /\ x = hd') \/ handlers s !! i = Some x).
  { intros hd' i x Hi.
    apply list_lookup_insert_Some in Hi as [(<- & <- & _) | (Hne & Hi)]; auto. }
  unfold signalHandler_step.
  destruct (h_pc hd) as [| | | | | | start |] eqn:Hhp; simpl in Hc.
  - (* HCheck *)
    destruct (h_tid hd =? _thread_id (slot s)); simpl;
      apply inv_private_move with (hd := hd); simpl; rewrite ?Hhp;
      solve [ auto | discriminate ].
  - (* HCas *)
    destruct (_thread_data_settable (slot s)) eqn:Hgate; simpl.
    + specialize (HW (h_goto HBuild hd)). rewrite ?Hhp in HW. simpl in HW.
      rewrite (Hgate0 eq_refl) in HW. specialize (Hgate1 eq_refl).
      constructor; simpl.
      * exact Ht.
      * discriminate.
      * lia.
      * rewrite Hgate1. discriminate.
      * intros _ i x Hi Hx. destruct (Hlook _ _ _ Hi) as [[-> ->] | Hi'].
        -- discriminate.
        -- eapply Hpub; eassumption.
      * intros Ha Hrd. destruct (Hseen Ha Hrd) as (_ & _ & ?). congruence.
      * intros Hld. rewrite Hld in Hgate1. discriminate.
      * intros Hd. eapply points_to_built_insert; eauto.
      * intros i x Hi Hx. destruct (Hlook _ _ _ Hi) as [[-> ->] | Hi'].
        -- discriminate.
        -- eapply Hb; eassumption.
      * intros p Hp'. rewrite Hp' in Hgate1. discriminate.
    + apply inv_private_move with (hd := hd); simpl; rewrite ?Hhp;
        solve [ auto | discriminate ].
  - (* HBuild *)
    apply inv_private_move with (hd := hd); simpl; rewrite ?Hhp;
      solve [ auto | discriminate ].
  - (* HPublish *)
    specialize (HW (h_goto HReady hd)). rewrite ?Hhp in HW. simpl in HW.
    assert (Hw1 : (1 <= winners_in_flight (handlers s))%nat) by exact Hc.
    assert (Hdata : h_data hd <> None) by (eapply Hb; [ exact Hh | rewrite Hhp; reflexivity ]).
    assert (Hlt : (h < length (handlers s))%nat) by (eapply lookup_lt_Some; eassumption).
    constructor; simpl.
    + exact Ht.
    + intros Hgate. specialize (Hgate0 Hgate). lia.
    + lia.
    + intros Ho. specialize (Hp Ho). lia.
    + discriminate.
    + intros Ha Hrd. destruct (Hseen Ha Hrd) as (_ & ? & _). lia.
    + discriminate.
    + intros _. exists h, (h_goto HReady hd).
      rewrite list_lookup_insert_eq by exact Hlt. auto.
    + intros i x Hi Hx. destruct (Hlook _ _ _ Hi) as [[-> ->] | Hi'].
      * exact Hdata.
      * eapply Hb; eassumption.
    + intros p Hp'. eapply points_to_built_insert; eauto.
  - (* HReady *)
    specialize (HW (h_goto HWaitStart hd)). rewrite ?Hhp in HW. simpl in HW.
    assert (Hw1 : (1 <= winners_in_flight (handlers s))%nat) by exact Hc.
    assert (Hdata : h_data hd <> None) by (eapply Hb; [ exact Hh | rewrite Hhp; reflexivity ]).
    assert (Hclosed : _thread_data_settable (slot s) = false).
    { destruct (_thread_data_settable (slot s));
        [ specialize (Hgate0 eq_refl); lia | reflexivity ]. }
    constructor; simpl.
    + exact Ht.
    + rewrite Hclosed. discriminate.
    + lia.
    + intros _. lia.
    + intros Ho i x Hi Hx. destruct (Hlook _ _ _ Hi) as [[-> ->] | Hi'].
      * discriminate.
      * eapply Hpub; eassumption.
    + intros Ha _. split; [ | split; [ lia | exact Hclosed ] ].
      eapply Hpub; [ apply awaiting_open_phase; exact Ha | exact Hh | exact Hhp ].
    + exact Hl.
    + intros Hd. eapply points_to_built_insert; eauto.
    + intros i x Hi Hx. destruct (Hlook _ _ _ Hi) as [[-> ->] | Hi'].
      * exact Hdata.
      * eapply Hb; eassumption.
    + intros p Hp'. eapply points_to_built_insert; eauto.
  - (* HWaitStart *)
    apply inv_private_move with (hd := hd); simpl; rewrite ?Hhp;
      solve [ auto | discriminate
            | intros _; eapply Hb; [ exact Hh | rewrite Hhp; reflexivity ] ].
  - (* HWait *)
    destruct (waitWhile_turn _ _ _ _); simpl;
      apply inv_private_move with (hd := hd); simpl; rewrite ?Hhp;
      solve [ auto | discriminate
            | intros _; eapply Hb; [ exact Hh | rewrite Hhp; reflexivity ] ].
  - (* HDone *)
    apply inv_private_move with (hd := hd); simpl; rewrite ?Hhp;
      solve [ auto | discriminate ].
Qed.

Lemma points_to_waiter_app (hs : list Handler) (x : Handler) (p : option nat) :
  points_to_waiter hs p -> points_to_waiter (hs ++ [x]) p.
Proof.
  intros (h & hd & -> & Hh & Hw). exists h, hd.
  split; [ reflexivity | split; [ apply lookup_app_l_Some; exact Hh | exact Hw ] ].
Qed.

Lemma points_to_waiter_insert (hs : list Handler) (h : nat) (hd hd' : Handler)
  (p : option nat) :
  hs !! h = Some hd -> (waiting (h_pc hd) = true -> waiting (h_pc hd') = true) ->
  points_to_waiter hs p -> points_to_waiter (<[h := hd']> hs) p.
Proof.
  intros Hh Hmono (i & x & -> & Hi & Hx).
  assert (Hlt : (h < length hs)%nat) by (eapply lookup_lt_Some; eassumption).
  destruct (decide (h = i)) as [-> | Hne].
  - exists i, hd'. rewrite list_lookup_insert_eq by exact Hlt.
    rewrite Hh in Hi. injection Hi as <-. auto.
  - exists i, x. rewrite list_lookup_insert_ne by exact Hne. auto.
Qed.

Lemma two_in_flight (hs : list Handler) :
  forall i j x y, hs !! i = Some x -> hs !! j = Some y -> i <> j ->
  in_flight (h_pc x) = true -> in_flight (h_pc y) = true ->
  (2 <= winners_in_flight hs)%nat.
Proof.
  induction hs as [| z hs IH]; intros i j x y Hi Hj Hne Hx Hy; [ discriminate | ].
  destruct i as [| i], j as [| j]; simpl in *.
  - contradiction.
  - injection Hi as ->. rewrite Hx.
    pose proof (in_flight_counted hs j y Hj) as Hc. rewrite Hy in Hc. simpl in *. lia.
  - injection Hj as ->. rewrite Hy.
    pose proof (in_flight_counted hs i x Hi) as Hc. rewrite Hx in Hc. simpl in *. lia.
  - assert (i <> j) by congruence.
    specialize (IH i j x y Hi Hj ltac:(assumption) Hx Hy). lia.
Qed.

Lemma live_invoke (tid : Z) (uc : StackFrame) (env : Z) (s : Sys) (pd : list Z) :
  live_inv s ->
  live_inv (invoke tid uc env (mkSys (slot s) (driver s) (handlers s) pd)).
Proof.
  intros [Hw Hpub Hseen Hl Hr].
  unfold invoke. constructor; simpl; auto.
  - intros Ho i hd Hi Hpc. apply lookup_snoc_Some in Hi as [[_ Hi] | [_ <-]].
    + eapply Hpub; eassumption.
    + discriminate.
  - intros Ha Hrd. apply points_to_waiter_app. auto.
  - intros Hld. apply points_to_waiter_app. auto.
  - intros p Hp'. apply points_to_waiter_app. auto.
Qed.

Lemma live_call (thread_id : Z) (s : Sys) :
  live_inv s -> live_inv (fst (stp (ActCall thread_id) s)).
Proof.
  intros Hlive. simpl.
  destruct (d_pc (driver s)) as [| | | | | | | | | | | | | b |] eqn:Hpc;
    try exact Hlive; simpl;
    constructor; simpl; intros; discriminate.
Qed.

Ltac settle_live Hpc :=
  constructor; simpl; rewrite ?Hpc; simpl;
  try solve [ auto | intros; discriminate | intros; congruence ].

Lemma live_walk (os : OSIn) (s : Sys) :
  handshake_inv s ->
  live_inv s ->
  d_pc (driver (fst (walk os s))) <> WAbandon ->
  live_inv (fst (walk os s)).
Proof.
  intros Hinv Hlive. pose proof Hinv as [Ht Hg Hs Hp Hpub Hseen Hl Hptr Hb Hr].
  pose proof Hlive as [Lw Lpub Lseen Ll Lr].
  unfold walkStack_step.
  destruct (d_pc (driver s)) as [| | | | | | | | start | | data | | | b |] eqn:Hpc;
    simpl in *; try (intros _; exact Hlive).
  - (* WSetThreadId *) intros _. settle_live Hpc.
  - (* WSetData *) intros _. settle_live Hpc.
  - (* WSetSettable: no winner is in flight when the gate opens *)
    intros _. settle_live Hpc.
    intros _ i hd Hi Hr'. exfalso.
    eapply no_winner_at_HReady; [ apply Hp; reflexivity | exact Hi | exact Hr' ].
  - (* WSetWalked *) intros _. settle_live Hpc.
  - (* WSetReady *) intros _. settle_live Hpc.
  - (* WSend *)
    destruct (signal_ok os); simpl; intros Hna; [ | contradiction ].
    settle_live Hpc.
  - (* WWaitStart *) intros _. settle_live Hpc.
  - (* WWait *)
    destruct (waitWhile_turn _ _ _ _) as [[] |] eqn:Hw; simpl; intros Hna;
      [ | contradiction | exact Hlive ].
    apply wait_returns_true in Hw.
    settle_live Hpc.
  - (* WLoad *)
    intros _. settle_live Hpc.
    intros p [= <-]. auto.
  - (* WRecord *)
    destruct (waiter_deref s data Hinv (Lr data eq_refl)) as [d ->].
    simpl. intros _. settle_live Hpc.
  - (* WRelease *) intros _. settle_live Hpc.
  - (* WAbandon *) discriminate.
Qed.

(** A handler step that leaves [_stack_walked] and [_thread_data] alone,
    sets no flag, and neither arrives at the store of the ready flag nor
    leaves the wait. *)
Lemma live_private_move (s : Sys) (sl' : Slot) (h : nat) (hd hd' : Handler) :
  live_inv s ->
  handlers s !! h = Some hd ->
  _stack_walked sl' = _stack_walked (slot s) ->
  _thread_data sl' = _thread_data (slot s) ->
  _thread_data_ready sl' = _thread_data_ready (slot s) ->
  (h_pc hd' = HReady -> h_pc hd = HReady) ->
  (waiting (h_pc hd) = true -> waiting (h_pc hd') = true) ->
  live_inv (mkSys sl' (driver s) (<[h := hd']> (handlers s)) (pending s)).
Proof.
  intros [Lw Lpub Lseen Ll Lr] Hh E1 E2 E3 Hrd Hmono.
  constructor; simpl; rewrite ?E1, ?E2, ?E3; auto.
  - intros Ho i x Hi Hx.
    apply list_lookup_insert_Some in Hi as [(<- & <- & _) | (Hne & Hi)].
    + eapply Lpub; [ exact Ho | exact Hh | auto ].
    + eapply Lpub; eassumption.
  - intros Ha Hr'. eapply points_to_waiter_insert; eauto.
  - intros Hld. eapply points_to_waiter_insert; eauto.
  - intros p Hp'. eapply points_to_waiter_insert; eauto.
Qed.

Lemma unreleased_cases (p : WalkPc) :
  unreleased p = false ->
  awaiting p = false /\ p <> WLoad /\ forall q, p <> WRecord q.
Proof. destruct p; simpl; intros H; try discriminate; repeat split; congruence. Qed.

Lemma live_handler (h : nat) (now : Z) (s : Sys) :
  handshake_inv s -> live_inv s -> live_inv (fst (stp (ActHandler h now) s)).
Proof.
  intros Hinv Hlive. pose proof Hinv as [Ht Hg Hs Hp Hpub Hseen Hl Hptr Hb Hr].
  pose proof Hlive as [Lw Lpub Lseen Ll Lr].
  simpl. destruct (handlers s !! h) as [hd |] eqn:Hh; [ | exact Hlive ].
  pose proof (in_flight_counted _ _ _ Hh) as Hc.
  assert (Hlt : (h < length (handlers s))%nat) by (eapply lookup_lt_Some; eassumption).
  assert (Hlook : forall hd' i x,
            <[h := hd']> (handlers s) !! i = Some x ->
            (i = h /\ x = hd') \/ (i <> h /\ handlers s !! i = Some x)).
  { intros hd' i x Hi.
    apply list_lookup_insert_Some in Hi as [(<- & <- & _) | (Hne & Hi)]; auto. }
  unfold signalHandler_step.
  destruct (h_pc hd) as [| | | | | | start |] eqn:Hhp; simpl in Hc.
  - (* HCheck *)
    destruct (h_tid hd =? _thread_id (slot s)); simpl;
      apply live_private_move with (hd := hd); simpl; rewrite ?Hhp;
      solve [ auto | discriminate ].
  - (* HCas *)
    destruct (_thread_data_settable (slot s)) eqn:Hgate; simpl;
      apply live_private_move with (hd := hd); simpl; rewrite ?Hhp;
      solve [ auto | discriminate ].
  - (* HBuild *)
    apply live_private_move with (hd := hd); simpl; rewrite ?Hhp;
      solve [ auto | discriminate ].
  - (* HPublish: the one winner in flight stores its own address *)
    assert (Hw1 : (1 <= winners_in_flight (handlers s))%nat) by exact Hc.
    constructor; simpl.
    + exact Lw.
    + intros Ho i x Hi Hx. destruct (Hlook _ _ _ Hi) as [[-> ->] | [Hne Hi']].
      * reflexivity.
      * exfalso.
        pose proof (two_in_flight (handlers s) i h x hd Hi' Hh Hne) as H2.
        rewrite Hx, Hhp in H2. specialize (H2 eq_refl eq_refl). lia.
    + intros Ha Hrd. destruct (Hseen Ha Hrd) as (_ & ? & _). lia.
    + intros Hld. rewrite Hld in Hp. specialize (Hp eq_refl). lia.
    + intros p Hp'. rewrite Hp' in Hp. specialize (Hp eq_refl). lia.
  - (* HReady: the flag is stored after the address *)
    assert (Hw1 : (1 <= winners_in_flight (handlers s))%nat) by exact Hc.
    constructor; simpl.
    + exact Lw.
    + intros Ho i x Hi Hx. destruct (Hlook _ _ _ Hi) as [[-> ->] | [Hne Hi']].
      * discriminate.
      * eapply Lpub; eassumption.
    + intros Ha _.
      rewrite (Lpub (awaiting_open_phase _ Ha) h hd Hh Hhp).
      exists h, (h_goto HWaitStart hd).
      rewrite list_lookup_insert_eq by exact Hlt. auto.
    + intros Hld. rewrite Hld in Hp. specialize (Hp eq_refl). lia.
    + intros p Hp'. rewrite Hp' in Hp. specialize (Hp eq_refl). lia.
  - (* HWaitStart *)
    apply live_private_move with (hd := hd); simpl; rewrite ?Hhp;
      solve [ auto | discriminate ].
  - (* HWait: no waiter leaves before the release *)
    rewrite waitWhile_no_timeout.
    destruct (_stack_walked (slot s)) eqn:Hsw; simpl.
    + destruct (unreleased (d_pc (driver s))) eqn:Hun;
        [ specialize (Lw eq_refl); congruence | ].
      destruct (unreleased_cases _ Hun) as (Ha & Hnl & Hnr).
      constructor; simpl.
      * rewrite Hun. discriminate.
      * intros Ho i x Hi Hx. destruct (Hlook _ _ _ Hi) as [[-> ->] | [Hne Hi']].
        -- discriminate.
        -- eapply Lpub; eassumption.
      * rewrite Ha. discriminate.
      * intros Hld. contradiction.
      * intros p Hp'. exfalso. eapply Hnr. exact Hp'.
    + apply live_private_move with (hd := hd); simpl; rewrite ?Hhp;
        solve [ auto | discriminate ].
  - (* HDone *)
    apply live_private_move with (hd := hd); simpl; rewrite ?Hhp;
      solve [ auto | discriminate ].
Qed.

Lemma inv_step (a : Action) (s : Sys) :
  handshake_inv s ->
  live_inv s ->
  d_pc (driver (fst (stp a s))) <> WAbandon ->
  handshake_inv (fst (stp a s)) /\ live_inv (fst (stp a s)).
Proof.
  intros Hinv Hlive Hna.
  destruct a as [tid | os | tid uc env | tid uc env | h now].
  - split; [ apply inv_call | apply live_call ]; assumption.
  - split; [ apply inv_walk | apply live_walk ]; assumption.
  - simpl. destruct (existsb _ _); simpl; [ | split; assumption ].
    split.
    + apply (inv_invoke tid uc env s (remove_first tid (pending s))). exact Hinv.
    + apply (live_invoke tid uc env s (remove_first tid (pending s))). exact Hlive.
  - simpl. pose proof (inv_invoke tid uc env s (pending s) Hinv) as H.
    pose proof (live_invoke tid uc env s (pending s) Hlive) as H'.
    destruct s. split; [ exact H | exact H' ].
  - split; [ apply inv_handler | apply live_handler ]; assumption.
Qed.

Lemma inv_exec (sch : list Action) :
  forall s,
  handshake_inv s ->
  live_inv s ->
  (forall k, d_pc (driver (fst (run (take k sch) s))) <> WAbandon) ->
  handshake_inv (fst (run sch s)) /\ live_inv (fst (run sch s)).
Proof.
  induction sch as [| a sch IH]; intros s Hinv Hlive Hna; [ split; assumption | ].
  rewrite exec_cons. simpl fst.
  assert (H1 : d_pc (driver (fst (stp a s))) <> WAbandon).
  { specialize (Hna 1%nat). rewrite firstn_cons, exec_cons in Hna. exact Hna. }
  destruct (inv_step a s Hinv Hlive H1) as [Hinv1 Hlive1].
  apply IH; [ exact Hinv1 | exact Hlive1 | ].
  intros k. specialize (Hna (S k)). rewrite firstn_cons, exec_cons in Hna. exact Hna.
Qed.

Lemma inv_boot : handshake_inv boot.
Proof.
  constructor; simpl; try solve [ auto | discriminate | intros; discriminate ].
  - intros H. contradiction.
Qed.

Lemma live_boot : live_inv boot.
Proof. constructor; simpl; intros; discriminate. Qed.

(** X18. As long as the timer thread never abandons a call, whatever the
    handlers and stray signals do: when [walkStack] loads [_thread_data]
    after its wait it finds the address of a [data] that was built, and it
    never faults. *)
Lemma unabandoned_load_is_not_null (sch : list Action) :
  (forall k, d_pc (driver (fst (run (take k sch) boot))) <> WAbandon) ->
  let s := fst (run sch boot) in
  d_pc (driver s) <> WFault /\
  (d_pc (driver s) = WLoad -> _thread_data (slot s) <> None) /\
  (forall p, d_pc (driver s) = WRecord p -> deref (handlers s) p <> None).
Proof.
  intros Hna s.
  destruct (inv_exec sch boot inv_boot live_boot Hna) as [Hinv Hlive].
  fold s in Hinv, Hlive.
  pose proof Hinv as [Ht Hg Hs Hp Hpub Hseen Hl Hptr Hb Hr].
  split; [ | split ].
  - intros E. rewrite E in Ht. discriminate.
  - exact Hl.
  - intros p Hp'.
    destruct (waiter_deref s p Hinv (live_rec s Hlive p Hp')) as [d ->]. discriminate.
Qed.

End HandshakeFacts.

(** C3, as stated, fails.  The arm phase stores into the gate third, not
    last, and no fence follows the stores.  So a handler may find the gate
    open while [_thread_data_ready] and [_stack_walked] still hold what
    the previous handshake left: here the handler of a signal sent by an
    earlier, abandoned call wins the compare-and-swap with both flags
    true, and returns before the stack of its thread is walked. *)
Lemma arm_phase_opens_gate_before_clearing :
  let run := exec x86_SYSCALL_SIZE x86_isSyscall no_library cpu_10ms in
  take 6 (snd (run stale_signal_meets_arm boot))
  = [EvStoreThreadId 7; EvStoreData None; EvStoreSettable true;
     EvStoreWalked false; EvStoreReady false; EvSignal 7 true]
  /\ take 6 (snd (run stale_signal_meets_arm boot)) <> arm_order_claimed 7
  /\ forallb (fun a => negb (is_spurious a)) stale_signal_meets_arm = true
  /\ (let s := fst (run stale_signal_meets_arm boot) in
      handlers s !! 1%nat = Some (mkHandler 7 frame_in_code 77 None HCas)
      /\ slot s = mkSlot 7 None true true true
      /\ d_pc (driver s) = WSetWalked
      /\ snd (step x86_SYSCALL_SIZE x86_isSyscall no_library cpu_10ms
                (ActHandler 1 30000001) s) = [EvCas 1 true]
      /\ (let s' := fst (run handler_runs_through s) in
          h_pc <$> handlers s' !! 1%nat = Some HDone
          /\ d_pc (driver s') = WSetWalked
          /\ count_ev is_record (snd (run handler_runs_through s)) = O)).
Proof.
  cbv zeta. split; [ vm_compute; reflexivity | ].
  split; [ vm_compute; discriminate | ].
  repeat split; vm_compute; reflexivity.
Qed.

(** C3, amended. The arm phase of [walkStack] stores [_thread_id = T]
    first and [_thread_data = nullptr] second, and then the three flags
    [_thread_data_ready = false], [_stack_walked = false] and
    [_thread_data_settable = true], each by a sequentially consistent
    store and with no separate fence; all five stores precede the sending
    of the signal, at which point (no handler having stepped in between)
    the slot holds [T], [nullptr], an open gate and both flags cleared. *)
Theorem arm_phase_resets_slot_before_signal
  (SYSCALL_SIZE : Z) (isSyscall findLibraryByAddress : Z -> bool) (wc : WallClock)
  (s : Sys) (T : Z) (os1 os2 os3 os4 os5 os6 : OSIn) :
  idle s = true ->
  let r := exec SYSCALL_SIZE isSyscall findLibraryByAddress wc
             [ActCall T; ActDriver os1; ActDriver os2; ActDriver os3;
              ActDriver os4; ActDriver os5] s in
  slot (fst r) = mkSlot T None true false false /\
  d_pc (driver (fst r)) = WSend /\
  (exists flags,
     snd r = EvStoreThreadId T :: EvStoreData None :: flags /\
     flags ≡ₚ [EvStoreReady false; EvStoreWalked false; EvStoreSettable true]) /\
  count_ev is_fence (snd r) = O /\
  snd (step SYSCALL_SIZE isSyscall findLibraryByAddress wc (ActDriver os6) (fst r))
  = [EvSignal T (signal_ok os6)].
Proof.
  intros Hidle.
  assert (E : exec SYSCALL_SIZE isSyscall findLibraryByAddress wc
                [ActCall T; ActDriver os1; ActDriver os2; ActDriver os3;
                 ActDriver os4; ActDriver os5] s
              = (mkSys (mkSlot T None true false false) (mkDriver WSend T)
                   (handlers s) (pending s),
                 [EvStoreThreadId T; EvStoreData None; EvStoreSettable true;
                  EvStoreWalked false; EvStoreReady false])).
  { destruct s as [sl [p arg] hs pd]. unfold idle in Hidle. simpl in Hidle.
    destruct p; try discriminate; reflexivity. }
  cbv zeta. rewrite E. simpl.
  repeat split.
  - eexists. split; [ reflexivity | ].
    change [EvStoreReady false; EvStoreWalked false; EvStoreSettable true]
      with (rev [EvStoreSettable true; EvStoreWalked false; EvStoreReady false]).
    apply Permutation_rev.
  - unfold walkStack_step. simpl. destruct (signal_ok os6); reflexivity.
Qed.

Lemma arm_phase_resets_slot_before_signal_witness :
  slot (fst (exec x86_SYSCALL_SIZE x86_isSyscall no_library cpu_10ms armed_for_7 boot))
  = mkSlot 7 None true false false.
Proof.
  apply (arm_phase_resets_slot_before_signal x86_SYSCALL_SIZE x86_isSyscall no_library
           cpu_10ms boot 7 (os_at 0) (os_at 0) (os_at 0) (os_at 0) (os_at 0) (os_at 0)).
  reflexivity.
Defined.

(** C6 fails on the code: a handler that won the compare-and-swap of a
    call the timer thread has since abandoned stores its pointer before,
    and its ready flag after, the timer thread's next arm phase.  The
    timer thread then finds [_thread_data_ready] true, loads a null
    [_thread_data] and dereferences it. *)
Theorem late_publication_yields_null_load :
  let run := exec x86_SYSCALL_SIZE x86_isSyscall no_library cpu_10ms in
  let s := fst (run late_publication boot) in
  forallb (fun a => negb (is_spurious a)) (late_publication ++ load_and_use) = true
  /\ d_pc (driver s) = WLoad
  /\ _thread_data_ready (slot s) = true
  /\ _thread_data (slot s) = None
  /\ d_pc (driver (fst (run load_and_use s))) = WFault.
Proof. vm_compute. repeat split; reflexivity. Qed.

(** ** The theorems at concrete inputs *)

Lemma at_most_one_cas_win_per_arm_phase_witness :
  let run := exec x86_SYSCALL_SIZE x86_isSyscall no_library cpu_10ms in
  let armed :=
    fst (step x86_SYSCALL_SIZE x86_isSyscall no_library cpu_10ms (ActDriver (os_at 0))
           (fst (run before_arm_write boot))) in
  snd (run two_handlers_race armed)
  = [EvStoreWalked false; EvStoreReady false; EvSignal 7 true;
     EvCas 0 true; EvCas 1 false]
  /\ (count_ev is_cas_win (snd (run two_handlers_race armed)) <= 1)%nat.
Proof.
  cbv zeta. split; [ reflexivity | ].
  apply (at_most_one_cas_win_per_arm_phase x86_SYSCALL_SIZE x86_isSyscall no_library
           cpu_10ms
           (fst (exec x86_SYSCALL_SIZE x86_isSyscall no_library cpu_10ms
                   before_arm_write boot))
           (os_at 0) two_handlers_race); reflexivity.
Defined.



(** * Further facts about the code *)

(** ** getThreadState: the page test *)

Lemma land_page_offset (a : Z) : Z.land a 0xfff = a mod 4096.
Proof. change 0xfff with (Z.ones 12). rewrite Z.land_ones by lia. reflexivity. Qed.

(** X1. When [getThreadState] reads the instruction before [pc] without
    the library oracle vouching for it, every byte of that instruction
    lies on the 4 KiB page of [pc], and the address did not wrap. *)
Theorem previous_instruction_on_page_of_pc
  (SYSCALL_SIZE : Z) (isSyscall findLibraryByAddress : Z -> bool) (frame : StackFrame) :
  0 <= pc frame < 2 ^ 64 ->
  0 < SYSCALL_SIZE < 2 ^ 64 ->
  let prev_pc := wrap_uintptr (pc frame - SYSCALL_SIZE) in
  In prev_pc (snd (getThreadState SYSCALL_SIZE isSyscall findLibraryByAddress frame)) ->
  findLibraryByAddress prev_pc = false ->
  prev_pc = pc frame - SYSCALL_SIZE /\
  forall b, prev_pc <= b < pc frame -> b / 4096 = pc frame / 4096.
Proof.
  intros Hpc Hsz prev_pc Hread Hlib.
  assert (Hne : prev_pc <> pc frame) by (apply prev_pc_differs; assumption).
  assert (Hpage : SYSCALL_SIZE <= pc frame mod 4096).
  { unfold getThreadState in Hread. fold prev_pc in Hread.
    destruct (isSyscall (pc frame)).
    - simpl in Hread. destruct Hread as [E | []]. congruence.
    - rewrite Hlib, orb_false_r, Z.geb_leb, land_page_offset in Hread.
      destruct (SYSCALL_SIZE <=? pc frame mod 4096) eqn:E.
      + apply Z.leb_le. exact E.
      + simpl in Hread. destruct Hread as [E' | []]. congruence. }
  pose proof (Z.div_mod (pc frame) 4096 ltac:(lia)) as Hdm.
  pose proof (Z.mod_pos_bound (pc frame) 4096 ltac:(lia)) as Hmb.
  assert (Hprev : prev_pc = pc frame - SYSCALL_SIZE).
  { subst prev_pc. unfold wrap_uintptr. apply Z.mod_small. lia. }
  split; [ exact Hprev | ].
  intros b Hb. rewrite Hprev in Hb.
  symmetry. apply Z.div_unique with (r := b - 4096 * (pc frame / 4096)); lia.
Qed.

Lemma previous_instruction_on_page_of_pc_witness :
  wrap_uintptr (pc frame_after_syscall - x86_SYSCALL_SIZE) = 0x7ffff7a01000
  /\ 0x7ffff7a01001 / 4096 = pc frame_after_syscall / 4096.
Proof.
  destruct (previous_instruction_on_page_of_pc x86_SYSCALL_SIZE x86_isSyscall no_library
              frame_after_syscall) as [H1 H2].
  - simpl. lia.
  - unfold x86_SYSCALL_SIZE. lia.
  - vm_compute. right. left. reflexivity.
  - reflexivity.
  - split; [ exact H1 | apply H2; vm_compute; split; [ discriminate | reflexivity ] ].
Defined.

(** ** adjustInterval: what the division buys *)

Lemma adjustInterval_div (interval n : Z) :
  0 <= interval < 2 ^ 63 ->
  THREADS_PER_TICK < n -> n + THREADS_PER_TICK - 1 <= INT_MAX ->
  adjustInterval interval n = interval / ((n + THREADS_PER_TICK - 1) / THREADS_PER_TICK)
  /\ 2 <= (n + THREADS_PER_TICK - 1) / THREADS_PER_TICK.
Proof.
  intros Hi Hn Hmax. unfold adjustInterval.
  destruct (n >? THREADS_PER_TICK) eqn:E; [ | lia ].
  rewrite adjustInterval_divisor by assumption.
  assert (Hk : 2 <= (n + THREADS_PER_TICK - 1) / THREADS_PER_TICK).
  { unfold THREADS_PER_TICK in *. apply Z.div_le_lower_bound; lia. }
  split; [ | exact Hk ].
  rewrite Z.quot_div_nonneg by lia.
  apply wrap_long_small.
  assert (0 <= interval / ((n + THREADS_PER_TICK - 1) / THREADS_PER_TICK))
    by (apply Z.div_pos; lia).
  assert (interval / ((n + THREADS_PER_TICK - 1) / THREADS_PER_TICK) <= interval)
    by (apply Z.div_le_upper_bound; nia).
  lia.
Qed.

(** X2. For a non-negative interval and more than THREADS_PER_TICK
    threads, the adjusted interval is what makes one sweep over all [n]
    threads, THREADS_PER_TICK per tick, last one interval: [k] ticks of the
    adjusted interval fit into the interval and [k] ticks of one
    nanosecond more do not, where [k] is the number of ticks of a sweep.
    The adjusted interval is never negative and at most half the
    interval. *)
Theorem adjustInterval_keeps_sweep_time (interval n : Z) :
  0 <= interval < 2 ^ 63 ->
  THREADS_PER_TICK < n -> n + THREADS_PER_TICK - 1 <= INT_MAX ->
  let k := (n + THREADS_PER_TICK - 1) / THREADS_PER_TICK in
  let a := adjustInterval interval n in
  n <= THREADS_PER_TICK * k /\
  a * k <= interval < (a + 1) * k /\
  0 <= a /\ 2 * a <= interval.
Proof.
  intros Hi Hn Hmax k a.
  destruct (adjustInterval_div interval n Hi Hn Hmax) as [Ha Hk].
  fold k in Ha, Hk. fold a in Ha.
  pose proof (Z.div_mod interval k ltac:(lia)) as Hdm.
  pose proof (Z.mod_pos_bound interval k ltac:(lia)) as Hmb.
  rewrite <- Ha in Hdm.
  assert (Hpos : 0 <= a) by (rewrite Ha; apply Z.div_pos; lia).
  split.
  - subst k. unfold THREADS_PER_TICK in *.
    pose proof (Z.div_mod (n + 8 - 1) 8 ltac:(lia)).
    pose proof (Z.mod_pos_bound (n + 8 - 1) 8 ltac:(lia)). lia.
  - split; [ nia | split; [ exact Hpos | nia ] ].
Qed.

Lemma adjustInterval_keeps_sweep_time_witness :
  adjustInterval 10000000 100 * 13 <= 10000000 < (adjustInterval 10000000 100 + 1) * 13.
Proof.
  apply (adjustInterval_keeps_sweep_time 10000000 100);
    unfold THREADS_PER_TICK, INT_MAX; lia.
Defined.

(** X3. More threads never lengthen the adjusted interval: for a
    non-negative interval, [adjustInterval] is antitone in the thread
    count, and it never exceeds the interval. *)
Theorem adjustInterval_antitone (interval n m : Z) :
  0 <= interval < 2 ^ 63 ->
  n <= m -> m + THREADS_PER_TICK - 1 <= INT_MAX ->
  adjustInterval interval m <= adjustInterval interval n <= interval.
Proof.
  intros Hi Hnm Hmax.
  destruct (Z.le_gt_cases n THREADS_PER_TICK) as [Hn | Hn].
  - assert (En : adjustInterval interval n = interval).
    { unfold adjustInterval. destruct (n >? THREADS_PER_TICK) eqn:E; [ lia | reflexivity ]. }
    rewrite En. split; [ | lia ].
    destruct (Z.le_gt_cases m THREADS_PER_TICK) as [Hm | Hm].
    + unfold adjustInterval. destruct (m >? THREADS_PER_TICK) eqn:E; lia.
    + destruct (adjustInterval_div interval m Hi Hm Hmax) as [-> Hk].
      apply Z.div_le_upper_bound; nia.
  - destruct (adjustInterval_div interval n Hi Hn ltac:(lia)) as [-> Hkn].
    destruct (adjustInterval_div interval m Hi ltac:(lia) Hmax) as [-> Hkm].
    split.
    + apply Z.div_le_compat_l; [ lia | ].
      split; [ lia | ].
      apply Z.div_le_mono; unfold THREADS_PER_TICK; lia.
    + apply Z.div_le_upper_bound; nia.
Qed.

Lemma adjustInterval_antitone_witness :
  adjustInterval 10000000 200 <= adjustInterval 10000000 64 <= 10000000.
Proof.
  apply (adjustInterval_antitone 10000000 64 200);
    unfold THREADS_PER_TICK, INT_MAX; lia.
Defined.

(** ** waitWhile *)

Lemma waitWhile_turn_cases (condition : bool) (timeout_ns start now : Z) :
  (waitWhile_turn condition timeout_ns start now = None
   /\ keeps_waiting timeout_ns start (condition, now)) \/
  (waitWhile_turn condition timeout_ns start now = Some true
   /\ condition = false) \/
  (waitWhile_turn condition timeout_ns start now = Some false
   /\ condition = true /\ timeout_ns <> -1 /\ timeout_ns < wrap_long (now - start)).
Proof.
  unfold waitWhile_turn, keeps_waiting. destruct condition; simpl; [ | auto ].
  destruct (Z.eqb_spec timeout_ns (-1)) as [-> | Hne]; simpl; [ auto | ].
  destruct (Z.gtb_spec (wrap_long (now - start)) timeout_ns);
    [ right; right | left ]; repeat split; auto; lia.
Qed.

Lemma keeps_waiting_not_late (timeout_ns start : Z) (turn : bool * Z) :
  keeps_waiting timeout_ns start turn ->
  ~ (timeout_ns <> -1 /\ timeout_ns < wrap_long (snd turn - start)).
Proof. intros [_ [E | Hle]] [Hne Hlt]; [ contradiction | lia ]. Qed.

(** X4. What the three outcomes of [waitWhile] mean.  It returns true
    exactly when some turn finds the condition false, all turns before it
    having kept the loop going; it returns false exactly when it has a
    timeout (not -1) and some turn finds the condition true with more
    than the timeout elapsed, all turns before it having kept the loop
    going; it is still running exactly when every turn kept it going.  A
    turn keeps the loop going when the condition holds and there is no
    timeout or no more than the timeout has elapsed. *)
Theorem waitWhile_outcome (timeout_ns start : Z) (turns : list (bool * Z)) :
  (waitWhile timeout_ns start turns = Some true <->
   exists pre now post,
     turns = pre ++ (false, now) :: post /\
     Forall (keeps_waiting timeout_ns start) pre) /\
  (waitWhile timeout_ns start turns = Some false <->
   timeout_ns <> -1 /\
   exists pre now post,
     turns = pre ++ (true, now) :: post /\
     Forall (keeps_waiting timeout_ns start) pre /\
     timeout_ns < wrap_long (now - start)) /\
  (waitWhile timeout_ns start turns = None <->
   Forall (keeps_waiting timeout_ns start) turns).
Proof.
  induction turns as [| [c now] turns (IHt & IHf & IHn)].
  - simpl. repeat split; try discriminate; auto.
    + intros (pre & now & post & E & _). destruct pre; discriminate.
    + intros (_ & pre & now & post & E & _). destruct pre; discriminate.
  - simpl.
    destruct (waitWhile_turn_cases c timeout_ns start now)
      as [[-> Hk] | [[-> ->] | (-> & -> & Hne & Hlate)]].
    + (* this turn keeps waiting *)
      split; [ | split ].
      * rewrite IHt. split.
        -- intros (pre & n & post & -> & Hpre).
           exists ((c, now) :: pre), n, post. split; [ reflexivity | auto ].
        -- intros (pre & n & post & E & Hpre). destruct pre as [| x pre].
           ++ injection E as -> _ _. destruct Hk as [Hk _]. discriminate.
           ++ injection E as _ ->. inversion Hpre. eauto.
      * rewrite IHf. split.
        -- intros (Hne & pre & n & post & -> & Hpre & Hl). split; [ exact Hne | ].
           exists ((c, now) :: pre), n, post. split; [ reflexivity | auto ].
        -- intros (Hne & pre & n & post & E & Hpre & Hl). split; [ exact Hne | ].
           destruct pre as [| x pre].
           ++ injection E as -> -> _. exfalso.
              apply (keeps_waiting_not_late _ _ _ Hk). simpl. auto.
           ++ injection E as _ ->. inversion Hpre; subst.
              exists pre, n, post. auto.
      * rewrite IHn. split; [ auto | ]. intros H. inversion H. assumption.
    + (* the condition is false *)
      split; [ | split ].
      * split; [ intros _ | reflexivity ].
        exists [], now, turns. auto.
      * split; [ discriminate | ].
        intros (_ & pre & n & post & E & Hpre & _). destruct pre as [| x pre].
        -- discriminate.
        -- injection E as <- _. inversion Hpre as [| ? ? [Hx _]]. discriminate.
      * split; [ discriminate | ].
        intros H. inversion H as [| ? ? [Hx _]]. discriminate.
    + (* the timeout has passed *)
      split; [ | split ].
      * split; [ discriminate | ].
        intros (pre & n & post & E & Hpre). destruct pre as [| x pre].
        -- discriminate.
        -- injection E as <- _. inversion Hpre as [| ? ? Hx].
           exfalso. apply (keeps_waiting_not_late _ _ _ Hx). simpl. auto.
      * split; [ intros _ | reflexivity ].
        split; [ exact Hne | ]. exists [], now, turns. auto.
      * split; [ discriminate | ].
        intros H. inversion H as [| ? ? Hx].
        exfalso. apply (keeps_waiting_not_late _ _ _ Hx). simpl. auto.
Qed.

(** X5. With a timeout, [waitWhile] is over at the latest in the first
    turn that reads the clock more than the timeout after the start:
    nothing after that turn is looked at. *)
Theorem waitWhile_stops_at_deadline
  (timeout_ns start : Z) (pre post : list (bool * Z)) (late : bool * Z) :
  timeout_ns <> -1 ->
  timeout_ns < wrap_long (snd late - start) ->
  exists b,
    waitWhile timeout_ns start (pre ++ late :: post) = Some b /\
    waitWhile timeout_ns start (pre ++ [late]) = Some b.
Proof.
  intros Hne Hlate. induction pre as [| [c now] pre IH]; simpl.
  - destruct late as [c now]. simpl in Hlate.
    destruct (waitWhile_turn_cases c timeout_ns start now)
      as [[_ Hk] | [[-> _] | (-> & _)]]; eauto.
    exfalso. apply (keeps_waiting_not_late _ _ _ Hk). simpl. auto.
  - destruct (waitWhile_turn c timeout_ns start now); eauto.
Qed.

Lemma waitWhile_stops_at_deadline_witness :
  waitWhile HANDSHAKE_TIMEOUT 0
    [(true, 5); (true, 9000000); (true, 10000001); (false, 10000002)]
  = Some false.
Proof.
  destruct (waitWhile_stops_at_deadline HANDSHAKE_TIMEOUT 0
              [(true, 5); (true, 9000000)] [(false, 10000002)] (true, 10000001))
    as (b & H1 & H2).
  - discriminate.
  - reflexivity.
  - simpl app in H1, H2. rewrite H1, <- H2. reflexivity.
Defined.

(** ** start and stop *)

(** X6. How [start] resolves the sampling interval, for a positive
    DEFAULT_INTERVAL: a positive [wall] argument is the interval and
    turns idle sampling on; [wall = 0] turns idle sampling on with five
    times the default; without a [wall] argument a non-zero [interval]
    argument is taken as it is, and a zero one is replaced by the
    default, times five when the event is the wall event.  The interval
    left in place is never zero. *)
Theorem start_resolves_interval
  (DEFAULT_INTERVAL : Z) (EVENT_WALL : string)
  (args : Arguments) (pthread_create_ok : bool) (w : WallClock) :
  0 < DEFAULT_INTERVAL < 2 ^ 60 ->
  let w' := snd (start DEFAULT_INTERVAL EVENT_WALL args pthread_create_ok w) in
  _interval w' <> 0 /\
  (0 < _wall args ->
   _interval w' = _wall args /\ _sample_idle_threads w' = true) /\
  (_wall args = 0 ->
   _interval w' = 5 * DEFAULT_INTERVAL /\ _sample_idle_threads w' = true) /\
  (_wall args < 0 -> args_interval args <> 0 ->
   _interval w' = args_interval args
   /\ _sample_idle_threads w' = String.eqb (_event args) EVENT_WALL) /\
  (_wall args < 0 -> args_interval args = 0 ->
   _interval w'
   = if String.eqb (_event args) EVENT_WALL then 5 * DEFAULT_INTERVAL
     else DEFAULT_INTERVAL).
Proof.
  intros HD w'.
  assert (E5 : wrap_long (DEFAULT_INTERVAL * 5) = 5 * DEFAULT_INTERVAL).
  { rewrite wrap_long_small; lia. }
  subst w'. unfold start. rewrite E5.
  destruct (Z.geb_spec (_wall args) 0) as [Hw | Hw]; simpl orb.
  - destruct (Z.eqb_spec (_wall args) 0) as [H0 | H0];
      destruct pthread_create_ok; simpl; repeat split; intros; lia.
  - destruct (Z.eqb_spec (args_interval args) 0) as [H0 | H0];
      destruct (String.eqb (_event args) EVENT_WALL);
      destruct pthread_create_ok; simpl; repeat split; intros; lia || reflexivity.
Qed.

Lemma start_resolves_interval_witness :
  _interval (snd (start 10000000 "wall" (mkArguments 0 0 "cpu") true stopped)) = 50000000.
Proof.
  destruct (start_resolves_interval 10000000 "wall" (mkArguments 0 0 "cpu") true stopped)
    as (_ & _ & H & _); [ lia | ].
  apply H. reflexivity.
Defined.


(** ** The timer loop, further *)

Section TimerLoopMore.

Variable World : Type.
Variable walkStack : Z -> World -> bool * World.
Variable threadState : Z -> World -> ThreadState.
Variable wc : WallClock.
Variable self : Z.
Variable thread_filter : ThreadFilter.

Local Abbreviation turn := (sample_turn World walkStack threadState wc self thread_filter).
Local Abbreviation loop := (sample_loop World walkStack threadState wc self thread_filter).
Local Abbreviation iteration :=
  (timerLoop_turn World walkStack threadState wc self thread_filter).
Local Abbreviation whole_loop :=
  (timerLoop World walkStack threadState wc self thread_filter).

Lemma sample_loop_unfold (fuel : nat) (count : Z) (l : ThreadList) (w : World) :
  loop fuel count l w
  = if count <? THREADS_PER_TICK then
      match fuel with
      | O => None
      | S fuel' =>
          match turn count l w with
          | (Break, count, l, w) => Some (count, l, w)
          | (Continue, count, l, w) => loop fuel' count l w
          end
      end
    else Some (count, l, w).
Proof. destruct fuel; reflexivity. Qed.

(** What one turn of the sampling loop does, case by case. *)
Lemma sample_turn_cases (count : Z) (l : ThreadList) (w : World) :
  (* the list is exhausted *)
  (turn count l w = (Break, count, tl_rewind l, w)) \/
  (exists t,
     tids l !! cursor l = Some t /\ t = -1 /\
     turn count l w = (Break, count, mkThreadList (tids l) O, w)) \/
  (* the thread is skipped *)
  (exists t,
     tids l !! cursor l = Some t /\ t <> -1 /\
     turn count l w = (Continue, count, mkThreadList (tids l) (S (cursor l)), w)) \/
  (* the thread is walked *)
  (exists t,
     tids l !! cursor l = Some t /\ t <> -1 /\ t <> self /\
     (enabled thread_filter = true -> accept thread_filter t = true) /\
     (_sample_idle_threads wc = true \/ threadState t w = THREAD_RUNNING) /\
     turn count l w
     = (Continue,
        (if fst (walkStack t w) then wrap_int (count + 1) else count),
        mkThreadList (tids l) (S (cursor l)), snd (walkStack t w))).
Proof.
  unfold sample_turn, tl_next.
  destruct (tids l !! cursor l) as [t |] eqn:Hl; [ | left; reflexivity ].
  right. destruct (Z.eqb_spec t (-1)) as [-> | Hend].
  { left. exists (-1). auto. }
  right. destruct (Z.eqb_spec t self) as [-> | Hself]; simpl.
  { left. exists self. auto. }
  destruct (enabled thread_filter) eqn:Hen; simpl.
  - destruct (accept thread_filter t) eqn:Hacc; simpl.
    + destruct (_sample_idle_threads wc) eqn:Hidle; simpl.
      * right. exists t. destruct (walkStack t w) as [b w1]. simpl. repeat split; auto.
      * destruct (threadState t w) eqn:Hst; simpl;
          try (left; exists t; auto; fail).
        right. exists t. destruct (walkStack t w) as [b w1]. simpl. repeat split; auto.
    + left. exists t. auto.
  - destruct (_sample_idle_threads wc) eqn:Hidle; simpl.
    + right. exists t. destruct (walkStack t w) as [b w1]. simpl.
      repeat split; auto; discriminate.
    + destruct (threadState t w) eqn:Hst; simpl;
        try (left; exists t; auto; fail).
      right. exists t. destruct (walkStack t w) as [b w1]. simpl.
      repeat split; auto; discriminate.
Qed.


(** X8. The sampling loop never counts more than THREADS_PER_TICK
    successful walks, and never counts down: started with a count between
    0 and THREADS_PER_TICK (the timer loop starts it at 0) it ends with a
    count between that and THREADS_PER_TICK. *)
Theorem sample_loop_count_bound (fuel : nat) :
  forall (count : Z) (l : ThreadList) (w : World) (c : Z) (l' : ThreadList) (w' : World),
  0 <= count <= THREADS_PER_TICK ->
  loop fuel count l w = Some (c, l', w') ->
  count <= c <= THREADS_PER_TICK.
Proof.
  induction fuel as [| fuel IH]; intros count l w c l' w' Hc;
    rewrite sample_loop_unfold;
    destruct (Z.ltb_spec count THREADS_PER_TICK) as [Hlt | Hge];
    try discriminate; try (intros [= <- <- <-]; lia).
  assert (Hw : wrap_int (count + 1) = count + 1).
  { apply wrap_int_small. unfold THREADS_PER_TICK, INT_MAX in *. lia. }
  destruct (sample_turn_cases count l w)
    as [-> | [(t & _ & _ & ->) | [(t & _ & _ & ->) | (t & _ & _ & _ & _ & _ & ->)]]].
  - intros [= <- <- <-]. lia.
  - intros [= <- <- <-]. lia.
  - intros H. apply IH in H; lia.
  - intros H. apply IH in H; destruct (fst (walkStack t w)); lia.
Qed.

(** X9. The sampling loop comes to an end: [remaining l + 1] turns are
    enough, since every turn that stays in the loop moves the cursor.  It
    ends either because THREADS_PER_TICK walks have succeeded, or at the
    end of the thread list, which it leaves rewound. *)
Theorem sample_loop_ends (count : Z) (l : ThreadList) (w : World) :
  exists c l' w',
    loop (S (remaining l)) count l w = Some (c, l', w') /\
    (THREADS_PER_TICK <= c \/ cursor l' = O) /\
    tids l' = tids l.
Proof.
  remember (remaining l) as n eqn:Hn.
  assert (Hle : (remaining l <= n)%nat) by lia. clear Hn.
  revert count l w Hle.
  induction n as [| n IH]; intros count l w Hle;
    rewrite sample_loop_unfold;
    destruct (Z.ltb_spec count THREADS_PER_TICK) as [Hlt | Hge];
    try (exists count, l, w; repeat split; auto; fail).
  - destruct (sample_turn_cases count l w)
      as [-> | [(t & _ & _ & ->) | [(t & Ht & _) | (t & Ht & _)]]].
    + exists count, (tl_rewind l), w. repeat split; auto.
    + exists count, (mkThreadList (tids l) O), w. repeat split; auto.
    + apply lookup_lt_Some in Ht. unfold remaining in Hle. lia.
    + apply lookup_lt_Some in Ht. unfold remaining in Hle. lia.
  - destruct (sample_turn_cases count l w)
      as [-> | [(t & _ & _ & ->) | [(t & Ht & _ & ->) | (t & Ht & _ & _ & _ & _ & ->)]]].
    + exists count, (tl_rewind l), w. repeat split; auto.
    + exists count, (mkThreadList (tids l) O), w. repeat split; auto.
    + apply lookup_lt_Some in Ht.
      destruct (IH count (mkThreadList (tids l) (S (cursor l))) w) as (c & l' & w' & H).
      { unfold remaining in *. simpl. lia. }
      exists c, l', w'. exact H.
    + apply lookup_lt_Some in Ht.
      destruct (IH (if fst (walkStack t w) then wrap_int (count + 1) else count)
                  (mkThreadList (tids l) (S (cursor l))) (snd (walkStack t w)))
        as (c & l' & w' & H).
      { unfold remaining in *. simpl. lia. }
      exists c, l', w'. exact H.
Qed.

(** X10. The sampling loop calls [walkStack] only on threads of the
    thread list that are not the timer thread, that the filter (when
    enabled) accepts, and that are reported running unless idle threads
    are sampled: whatever such calls preserve, the loop preserves. *)
Theorem sample_loop_walks_only_eligible (P : World -> Prop) (ts : list Z) (fuel : nat) :
  (forall t w0,
     In t ts -> t <> -1 -> t <> self ->
     (enabled thread_filter = true -> accept thread_filter t = true) ->
     (_sample_idle_threads wc = true \/ threadState t w0 = THREAD_RUNNING) ->
     P w0 -> P (snd (walkStack t w0))) ->
  forall (count : Z) (l : ThreadList) (w : World) (c : Z) (l' : ThreadList) (w' : World),
  tids l = ts ->
  P w ->
  loop fuel count l w = Some (c, l', w') ->
  P w'.
Proof.
  intros Hwalk.
  induction fuel as [| fuel IH]; intros count l w c l' w' Hts HP;
    rewrite sample_loop_unfold;
    destruct (count <? THREADS_PER_TICK);
    try discriminate; try (intros [= <- <- <-]; exact HP).
  destruct (sample_turn_cases count l w)
    as [-> | [(t & _ & _ & ->)
       | [(t & _ & _ & ->) | (t & Ht & Hend & Hself & Hacc & Hrun & ->)]]].
  - intros [= <- <- <-]. exact HP.
  - intros [= <- <- <-]. exact HP.
  - apply IH; [ exact Hts | exact HP ].
  - apply IH; [ exact Hts | ].
    apply Hwalk; auto.
    rewrite <- Hts. apply list_elem_of_In. eapply list_elem_of_lookup_2. exact Ht.
Qed.

Lemma iteration_sleep_floor (fuel : nat) (en : bool) (now : Z) (l l' : Loop World) (d : Z) :
  iteration fuel en now l = Some (l', d) ->
  Z.min MIN_INTERVAL (_interval wc) <= d.
Proof.
  unfold timerLoop_turn. destruct en; simpl.
  - destruct (sample_loop _ _ _ _ _ _ _ _ _ _) as [[[c tl] w] |]; [ | discriminate ].
    destruct (_sample_idle_threads wc).
    + destruct (Z.gtb_spec
                  (wrap_long
                     (wrap_long
                        (next_cycle_time World l
                         + adjustInterval (_interval wc)
                             (if enabled thread_filter then size thread_filter
                              else tl_size (thread_list World l))) - now))
                  MIN_INTERVAL); intros [= <- <-]; lia.
    + intros [= <- <-]. lia.
  - intros [= <- <-]. lia.
Qed.

Lemma sample_loop_keeps_tids (fuel : nat) :
  forall (count : Z) (l : ThreadList) (w : World) (c : Z) (l' : ThreadList) (w' : World),
  loop fuel count l w = Some (c, l', w') -> tids l' = tids l.
Proof.
  induction fuel as [| fuel IH]; intros count l w c l' w';
    rewrite sample_loop_unfold;
    destruct (count <? THREADS_PER_TICK);
    try discriminate; try (intros [= <- <- <-]; reflexivity).
  destruct (sample_turn_cases count l w)
    as [-> | [(t & _ & _ & ->) | [(t & _ & _ & ->) | (t & _ & _ & _ & _ & _ & ->)]]].
  - intros [= <- <- <-]. reflexivity.
  - intros [= <- <- <-]. reflexivity.
  - intros H. apply IH in H. exact H.
  - intros H. apply IH in H. exact H.
Qed.

Lemma iteration_keeps_tids (fuel : nat) (en : bool) (now : Z) (l l' : Loop World) (d : Z) :
  iteration fuel en now l = Some (l', d) ->
  tids (thread_list World l') = tids (thread_list World l).
Proof.
  unfold timerLoop_turn. destruct en; simpl; [ | intros [= <- <-]; reflexivity ].
  destruct (sample_loop _ _ _ _ _ _ _ _ _ _) as [[[c tl] w] |] eqn:Hl; [ | discriminate ].
  apply sample_loop_keeps_tids in Hl.
  destruct (_sample_idle_threads wc); [ destruct (_ >? MIN_INTERVAL) | ];
    intros [= <- <-]; exact Hl.
Qed.

Lemma iteration_returns (fuel : nat) (en : bool) (now : Z) (l : Loop World) :
  (length (tids (thread_list World l)) < fuel)%nat ->
  exists l' d, iteration fuel en now l = Some (l', d).
Proof.
  intros Hfuel. destruct fuel as [| n]; [ lia | ].
  unfold timerLoop_turn. destruct en; simpl negb; cbv iota; [ | eauto ].
  destruct (sample_loop_returns World walkStack threadState wc self thread_filter
              n 0 (thread_list World l) (world World l)) as [[[c l1] w1] Hr].
  { unfold remaining. lia. }
  rewrite Hr.
  destruct (_sample_idle_threads wc); [ | eauto ].
  destruct (_ >? MIN_INTERVAL); eauto.
Qed.

Lemma turns_return (fuel : nat) (inputs : list TurnInput) :
  forall l : Loop World,
  (length (tids (thread_list World l)) < fuel)%nat ->
  exists l' ds,
    timerLoop_turns World walkStack threadState wc self thread_filter fuel inputs l
    = Some (l', ds) /\
    length ds = length inputs /\
    Forall (fun d => Z.min MIN_INTERVAL (_interval wc) <= d) ds /\
    tids (thread_list World l') = tids (thread_list World l).
Proof.
  induction inputs as [| i inputs IH]; intros l Hfuel; simpl.
  - exists l, []. repeat split; auto.
  - destruct (iteration_returns fuel (enabled_now i) (time_now i) l Hfuel) as (l1 & d & H1).
    rewrite H1.
    pose proof (iteration_keeps_tids _ _ _ _ _ _ H1) as Ht.
    destruct (IH l1 ltac:(rewrite Ht; exact Hfuel)) as (l2 & ds & H2 & Hlen & Hfl & Ht2).
    rewrite H2. exists l2, (d :: ds).
    split; [ reflexivity | ]. split; [ simpl; lia | ].
    split; [ | congruence ].
    constructor; [ eapply iteration_sleep_floor; exact H1 | exact Hfl ].
Qed.

(** X11. The timer loop as a whole, run against what its turns read.
    It goes on as long as the loop head reads [_running = true], and
    ends at the first loop head that reads [_running = false]: that turn
    runs no body, so the loop leaves the state and the sleeps of the
    turns before it, one sleep per turn, with nothing sampled and no
    sleep added.  With fuel for a pass over the thread list every turn
    completes, so the loop does end then.  None of its sleeps is shorter
    than the smaller of MIN_INTERVAL and the configured interval, in
    either sampling mode and whether the engine is enabled or not. *)
Theorem timerLoop_stops_and_never_spins
  (fuel : nat) (pre : list TurnInput) (i : TurnInput) (post : list TurnInput)
  (l : Loop World) :
  Forall (fun j => running_now j = true) pre ->
  running_now i = false ->
  (length (tids (thread_list World l)) < fuel)%nat ->
  whole_loop fuel pre l = None /\
  whole_loop fuel (i :: post) l = Some (l, []) /\
  whole_loop fuel (pre ++ i :: post) l
  = timerLoop_turns World walkStack threadState wc self thread_filter fuel pre l /\
  exists l' ds,
    whole_loop fuel (pre ++ i :: post) l = Some (l', ds) /\
    length ds = length pre /\
    Forall (fun d => Z.min MIN_INTERVAL (_interval wc) <= d) ds /\
    tids (thread_list World l') = tids (thread_list World l).
Proof.
  intros Hpre Hi Hfuel.
  assert (Hnone : forall l0, whole_loop fuel pre l0 = None).
  { clear Hfuel l. induction Hpre as [| j pre Hj Hpre IH]; intros l0; simpl;
      [ reflexivity | ].
    rewrite Hj. destruct (timerLoop_turn _ _ _ _ _ _ _ _ _ _) as [[l1 d] |];
      [ | reflexivity ].
    rewrite IH. reflexivity. }
  assert (Heq : forall l0,
    whole_loop fuel (pre ++ i :: post) l0
    = timerLoop_turns World walkStack threadState wc self thread_filter fuel pre l0).
  { clear Hfuel l Hnone. induction Hpre as [| j pre Hj Hpre IH]; intros l0; simpl.
    - rewrite Hi. reflexivity.
    - rewrite Hj. destruct (timerLoop_turn _ _ _ _ _ _ _ _ _ _) as [[l1 d] |];
        [ | reflexivity ].
      rewrite IH. reflexivity. }
  split; [ apply Hnone | ].
  split; [ simpl; rewrite Hi; reflexivity | ].
  split; [ apply Heq | ].
  rewrite Heq.
  destruct (turns_return fuel pre l Hfuel) as (l' & ds & H & Hlen & Hfl & Ht).
  exists l', ds. auto.
Qed.

(** X12. Pacing of an enabled turn in idle-sampling mode, with all times
    well inside the range of [long]: the next cycle time becomes the
    larger of the old one plus the adjusted interval and of now plus
    MIN_INTERVAL, and the turn sleeps exactly until then. *)
Theorem idle_turn_sleeps_until_next_cycle
  (fuel : nat) (current_time : Z) (l l' : Loop World) (d : Z) :
  _sample_idle_threads wc = true ->
  0 <= _interval wc < 2 ^ 61 ->
  - 2 ^ 61 <= next_cycle_time World l < 2 ^ 61 ->
  - 2 ^ 61 <= current_time < 2 ^ 61 ->
  let estimated_thread_count :=
    if enabled thread_filter then size thread_filter
    else tl_size (thread_list World l) in
  estimated_thread_count + THREADS_PER_TICK - 1 <= INT_MAX ->
  iteration fuel true current_time l = Some (l', d) ->
  next_cycle_time World l'
  = Z.max (next_cycle_time World l + adjustInterval (_interval wc) estimated_thread_count)
          (current_time + MIN_INTERVAL)
  /\ d = next_cycle_time World l' - current_time.
Proof.
  intros Hidle Hi Hn Hnow est Hest.
  assert (Ha : 0 <= adjustInterval (_interval wc) est <= _interval wc).
  { destruct (Z.le_gt_cases est THREADS_PER_TICK) as [Hs | Hs].
    - unfold adjustInterval. destruct (est >? THREADS_PER_TICK) eqn:E; lia.
    - destruct (adjustInterval_div (_interval wc) est ltac:(lia) Hs Hest) as [-> Hk].
      split; [ apply Z.div_pos; lia | apply Z.div_le_upper_bound; nia ]. }
  unfold timerLoop_turn. simpl negb. cbv iota. rewrite Hidle. fold est.
  destruct (sample_loop _ _ _ _ _ _ _ _ _ _) as [[[c tl] w] |]; [ | discriminate ].
  rewrite (wrap_long_small (next_cycle_time World l + adjustInterval (_interval wc) est))
    by lia.
  rewrite (wrap_long_small
             (next_cycle_time World l + adjustInterval (_interval wc) est - current_time))
    by lia.
  unfold MIN_INTERVAL in *.
  destruct (Z.gtb_spec
              (next_cycle_time World l + adjustInterval (_interval wc) est - current_time)
              100000); intros [= <- <-]; simpl.
  - split; lia.
  - rewrite wrap_long_small by lia. split; lia.
Qed.

End TimerLoopMore.

Lemma sample_loop_count_bound_witness :
  sample_loop (list Z) walk_logged logged_running cpu_10ms 1 no_filter
    13 0 twelve_threads []
  = Some (8, mkThreadList (tids twelve_threads) 9, [9; 8; 7; 6; 5; 4; 3; 2])
  /\ 0 <= 8 <= THREADS_PER_TICK.
Proof.
  split; [ reflexivity | ].
  apply (sample_loop_count_bound (list Z) walk_logged logged_running cpu_10ms 1 no_filter
           13 0 twelve_threads [] 8 (mkThreadList (tids twelve_threads) 9)
           [9; 8; 7; 6; 5; 4; 3; 2]).
  - unfold THREADS_PER_TICK. lia.
  - reflexivity.
Defined.

Lemma sample_loop_walks_only_eligible_witness :
  ~ In 1 [9; 8; 7; 6; 5; 4; 3; 2].
Proof.
  apply (sample_loop_walks_only_eligible (list Z) walk_logged logged_running cpu_10ms 1
           no_filter (fun w => ~ In 1 w) (tids twelve_threads) 13)
    with (count := 0) (l := twelve_threads) (w := [])
         (c := 8) (l' := mkThreadList (tids twelve_threads) 9).
  - intros t w0 _ _ Hself _ _ Hw0 [E | Hin]; [ congruence | contradiction ].
  - reflexivity.
  - intros [].
  - reflexivity.
Defined.

Lemma timerLoop_stops_and_never_spins_witness :
  timerLoop unit walk_fails all_running wall_1us 1 no_filter 4 two_turns_then_stop loop0
  = timerLoop_turns unit walk_fails all_running wall_1us 1 no_filter 4
      [mkTurnInput true true 500; mkTurnInput true false 600] loop0
  /\ timerLoop unit walk_fails all_running wall_1us 1 no_filter 4 two_turns_then_stop loop0
     = Some (mkLoop unit 100500 (mkThreadList [1; 2; 3] 0) tt, [100000; 1000]).
Proof.
  split; [ | reflexivity ].
  destruct (timerLoop_stops_and_never_spins unit walk_fails all_running wall_1us 1 no_filter
              4 [mkTurnInput true true 500; mkTurnInput true false 600]
              (mkTurnInput false true 700) [] loop0) as (_ & _ & H & _).
  - repeat constructor.
  - reflexivity.
  - simpl. lia.
  - exact H.
Defined.

Lemma idle_turn_sleeps_until_next_cycle_witness :
  100500 = Z.max (0 + adjustInterval 1000 3) (500 + MIN_INTERVAL)
  /\ 100000 = 100500 - 500.
Proof.
  apply (idle_turn_sleeps_until_next_cycle unit walk_fails all_running wall_1us 1 no_filter
           4 500 loop0 (mkLoop unit 100500 (mkThreadList [1; 2; 3] 0) tt) 100000).
  - reflexivity.
  - simpl. lia.
  - simpl. lia.
  - lia.
  - vm_compute. discriminate.
  - reflexivity.
Defined.

(** ** The handshake, further *)

Lemma count_pc_app (f : HandlerPc -> bool) (hs1 hs2 : list Handler) :
  count_pc f (hs1 ++ hs2) = (count_pc f hs1 + count_pc f hs2)%nat.
Proof. induction hs1 as [| h hs1 IH]; simpl; [ reflexivity | rewrite IH; lia ]. Qed.

Lemma count_pc_insert (f : HandlerPc -> bool) (hs : list Handler) :
  forall h hd hd', hs !! h = Some hd ->
  (count_pc f (<[h := hd']> hs) + b2n (f (h_pc hd))
   = count_pc f hs + b2n (f (h_pc hd')))%nat.
Proof.
  induction hs as [| x hs IH]; intros h hd hd' Hh; [ discriminate | ].
  destruct h as [| h]; simpl in *.
  - injection Hh as ->. lia.
  - specialize (IH h hd hd' Hh). lia.
Qed.

(** What a step of the handler leaves alone. *)
Lemma handler_step_frame (now : Z) (h : nat) (hd : Handler) (sl : Slot) :
  let r := signalHandler_step now h hd sl in
  _thread_id (snd (fst r)) = _thread_id sl /\
  _stack_walked (snd (fst r)) = _stack_walked sl /\
  (_thread_data_ready sl = true -> _thread_data_ready (snd (fst r)) = true) /\
  (_thread_data_settable sl = false -> _thread_data_settable (snd (fst r)) = false) /\
  count_ev is_record (snd r) = O /\
  count_ev is_release (snd r) = O /\
  count_ev is_signal (snd r) = O /\
  count_ev is_arm (snd r) = O.
Proof.
  unfold signalHandler_step. destruct (h_pc hd); simpl; auto 10.
  - destruct (h_tid hd =? _thread_id sl); simpl; auto 10.
  - destruct (_thread_data_settable sl) eqn:E; simpl; rewrite ?E; repeat split; auto;
      discriminate.
  - destruct (waitWhile_turn _ _ _ _); simpl; auto 10.
Qed.

Section HandshakeMore.

Variable SYSCALL_SIZE : Z.
Variable isSyscall : Z -> bool.
Variable findLibraryByAddress : Z -> bool.
Variable wc : WallClock.

Local Abbreviation walk := (walkStack_step SYSCALL_SIZE isSyscall findLibraryByAddress wc).
Local Abbreviation stp := (step SYSCALL_SIZE isSyscall findLibraryByAddress wc).
Local Abbreviation run := (exec SYSCALL_SIZE isSyscall findLibraryByAddress wc).

Lemma env_step_frame (a : Action) (s : Sys) :
  is_env a = true ->
  driver (fst (stp a s)) = driver s /\
  _thread_id (slot (fst (stp a s))) = _thread_id (slot s) /\
  _stack_walked (slot (fst (stp a s))) = _stack_walked (slot s) /\
  (_thread_data_ready (slot s) = true ->
   _thread_data_ready (slot (fst (stp a s))) = true) /\
  (_thread_data_settable (slot s) = false ->
   _thread_data_settable (slot (fst (stp a s))) = false) /\
  count_ev is_record (snd (stp a s)) = O /\
  count_ev is_release (snd (stp a s)) = O /\
  count_ev is_signal (snd (stp a s)) = O /\
  count_ev is_arm (snd (stp a s)) = O.
Proof.
  destruct a as [tid | os | tid uc env | tid uc env | h now]; simpl;
    try discriminate; intros _.
  - destruct (existsb _ _); simpl; auto 10.
  - auto 10.
  - destruct (handlers s !! h) as [hd |]; simpl; auto 10.
    pose proof (handler_step_frame now h hd (slot s)) as H.
    destruct (signalHandler_step now h hd (slot s)) as [[hd' sl'] evs]. simpl in *.
    split; [ reflexivity | exact H ].
Qed.

(** X16. The handlers never do the timer thread's part.  However many
    handler invocations run, and whatever signals arrive, while
    [walkStack] stands still: [_thread_id] and [_stack_walked] keep their
    values, a set [_thread_data_ready] is not cleared, a closed gate is
    not opened, the recorder is not called and no signal is sent. *)
Theorem handlers_never_do_the_drivers_part (env : list Action) :
  forall s : Sys,
  forallb is_env env = true ->
  driver (fst (run env s)) = driver s /\
  _thread_id (slot (fst (run env s))) = _thread_id (slot s) /\
  _stack_walked (slot (fst (run env s))) = _stack_walked (slot s) /\
  (_thread_data_ready (slot s) = true ->
   _thread_data_ready (slot (fst (run env s))) = true) /\
  (_thread_data_settable (slot s) = false ->
   _thread_data_settable (slot (fst (run env s))) = false) /\
  count_ev is_record (snd (run env s)) = O /\
  count_ev is_release (snd (run env s)) = O /\
  count_ev is_signal (snd (run env s)) = O /\
  count_ev is_arm (snd (run env s)) = O.
Proof.
  induction env as [| a env IH]; intros s Henv; [ simpl; auto 10 | ].
  simpl in Henv. apply andb_true_iff in Henv as [Ha Henv].
  rewrite exec_cons. simpl fst. simpl snd. rewrite !count_ev_app.
  destruct (env_step_frame a s Ha) as (D & T & W & R & G & C1 & C2 & C3 & C4).
  destruct (IH (fst (stp a s)) Henv) as (D' & T' & W' & R' & G' & C1' & C2' & C3' & C4').
  rewrite D', T', W', C1', C2', C3', C4', D, T, W, C1, C2, C3, C4.
  repeat split; auto.
Qed.


(** *** A call that succeeds *)

Lemma call_progress_step (a : Action) (s : Sys) (c r : nat) :
  is_call a = false ->
  call_progress s c r ->
  call_progress (fst (stp a s))
    (c + count_ev is_record (snd (stp a s))) (r + count_ev is_release (snd (stp a s)))
  /\ d_arg (driver (fst (stp a s))) = d_arg (driver s).
Proof.
  intros Hcall Hp.
  destruct (is_env a) eqn:Henv.
  - destruct (env_step_frame a s Henv) as (D & T & W & R & _ & C1 & C2 & _).
    rewrite C1, C2, !Nat.add_0_r, D. split; [ | reflexivity ].
    unfold call_progress in *. rewrite D, T, W.
    destruct (d_pc (driver s)) as [| | | | | | | | start | | data | | | [] |];
      intuition auto.
  - destruct a as [tid | os | tid uc env | tid uc env | h now]; try discriminate.
    simpl. unfold call_progress in *. unfold walkStack_step.
    destruct (d_pc (driver s)) as [| | | | | | | | start | | data | | | [] |] eqn:Hpc;
      simpl; rewrite ?Hpc; simpl; try (intuition (auto; lia); fail).
    + destruct (signal_ok os); simpl; intuition (auto; lia).
    + destruct (waitWhile_turn _ _ _ _) as [[] |] eqn:Hw; simpl; rewrite ?Hpc;
        try (intuition (auto; lia); fail).
      apply wait_returns_true in Hw. intuition (auto; lia).
    + destruct (deref _ _); simpl; intuition (auto; lia).
Qed.

Lemma call_progress_exec (sch : list Action) :
  forall (s : Sys) (c r : nat),
  forallb (fun a => negb (is_call a)) sch = true ->
  call_progress s c r ->
  call_progress (fst (run sch s))
    (c + count_ev is_record (snd (run sch s))) (r + count_ev is_release (snd (run sch s)))
  /\ d_arg (driver (fst (run sch s))) = d_arg (driver s).
Proof.
  induction sch as [| a sch IH]; intros s c r Hsch Hp.
  - simpl. rewrite !Nat.add_0_r. auto.
  - simpl in Hsch. apply andb_true_iff in Hsch as [Ha Hsch].
    apply negb_true_iff in Ha.
    rewrite exec_cons. simpl fst. simpl snd. rewrite !count_ev_app.
    destruct (call_progress_step a s c r Ha Hp) as [Hp1 Harg1].
    destruct (IH _ _ _ Hsch Hp1) as [Hp2 Harg2].
    rewrite !Nat.add_assoc. split; [ exact Hp2 | congruence ].
Qed.

(** X13. A call of [walkStack] that returns true has called the recorder
    exactly once and released the handler exactly once, and returns with
    [_stack_walked] and [_thread_data_ready] set and with [_thread_id]
    still holding the thread it sampled (only a failed call resets it to
    -1). *)
Theorem successful_call_records_once
  (thread_id : Z) (sch : list Action) (s s' : Sys) (evs : list Event) :
  idle s = true ->
  forallb (fun a => negb (is_call a)) sch = true ->
  walkStack_run SYSCALL_SIZE isSyscall findLibraryByAddress wc thread_id sch s
  = Some (true, s', evs) ->
  count_ev is_record evs = 1%nat /\
  count_ev is_release evs = 1%nat /\
  _stack_walked (slot s') = true /\
  _thread_data_ready (slot s') = true /\
  _thread_id (slot s') = thread_id.
Proof.
  intros Hidle Hsch. unfold walkStack_run. rewrite exec_cons.
  set (s0 := fst (stp (ActCall thread_id) s)).
  assert (E0 : snd (stp (ActCall thread_id) s) = []).
  { simpl. destruct (d_pc (driver s)); reflexivity. }
  assert (P0 : call_progress s0 0 0 /\ d_arg (driver s0) = thread_id).
  { subst s0. unfold idle in Hidle. unfold call_progress. simpl.
    destruct (d_pc (driver s)); try discriminate; simpl; auto. }
  destruct P0 as [P0 A0].
  rewrite E0. simpl app.
  destruct (call_progress_exec sch s0 0 0 Hsch P0) as [P A]. simpl in P.
  destruct (d_pc (driver (fst (run sch s0)))) as [| | | | | | | | | | | | | b |] eqn:Hpc;
    try discriminate.
  intros [= -> <- <-].
  unfold call_progress in P. rewrite Hpc in P.
  destruct P as (Hc & Hr & Ht & Hrd & Hw).
  repeat split; auto. congruence.
Qed.

(** *** Record, then release *)

Lemma release_follows_record_step (a : Action) (s : Sys) (c r : nat) :
  release_follows_record s c r ->
  release_follows_record (fst (stp a s))
    (c + count_ev is_record (snd (stp a s))) (r + count_ev is_release (snd (stp a s))).
Proof.
  intros Hp. unfold release_follows_record in *.
  destruct (is_env a) eqn:Henv.
  - destruct (env_step_frame a s Henv) as (D & _ & _ & _ & _ & C1 & C2 & _).
    rewrite C1, C2, !Nat.add_0_r, D. exact Hp.
  - destruct a as [tid | os | tid uc env | tid uc env | h now]; try discriminate.
    + simpl. destruct (d_pc (driver s)) as [| | | | | | | | | | | | | [] |] eqn:Hpc;
        simpl; rewrite ?Hpc; lia.
    + simpl. unfold walkStack_step.
      destruct (d_pc (driver s)) as [| | | | | | | | start | | data | | | [] |] eqn:Hpc;
        simpl; rewrite ?Hpc; simpl; try lia.
      * destruct (signal_ok os); simpl; lia.
      * destruct (waitWhile_turn _ _ _ _) as [[] |]; simpl; rewrite ?Hpc; lia.
      * destruct (deref _ _); simpl; lia.
Qed.

(** X14. [_stack_walked = true] is stored only after the recorder has
    returned.  At every point of every execution from the initial state,
    the handlers have been released at most as often as the recorder has
    been called, and the recorder has been called at most once more than
    that: once for every release, and once more exactly while
    [walkStack] stands between [recordSample] and the release. *)
Theorem release_only_after_record (sch : list Action) :
  let s := fst (run sch boot) in
  let evs := snd (run sch boot) in
  (count_ev is_release evs <= count_ev is_record evs <= count_ev is_release evs + 1)%nat
  /\ (count_ev is_record evs = S (count_ev is_release evs) <->
      d_pc (driver s) = WRelease).
Proof.
  assert (G : forall sch s c r,
    release_follows_record s c r ->
    release_follows_record (fst (run sch s))
      (c + count_ev is_record (snd (run sch s)))
      (r + count_ev is_release (snd (run sch s)))).
  { clear sch. induction sch as [| a sch IH]; intros s c r Hp.
    - simpl. rewrite !Nat.add_0_r. exact Hp.
    - rewrite exec_cons. simpl fst. simpl snd. rewrite !count_ev_app, !Nat.add_assoc.
      apply IH. apply release_follows_record_step. exact Hp. }
  specialize (G sch boot O O eq_refl). simpl in G.
  unfold release_follows_record in G. cbv zeta.
  destruct (d_pc (driver (fst (run sch boot)))) eqn:Hpc;
    (split; [ lia | split; intros H; first [ lia | discriminate | reflexivity ] ]).
Qed.


(** *** From the arm write to the recorder call *)

Lemma pipeline_step (a : Action) (s : Sys) (w p r c : nat) :
  pipeline s w p r c ->
  pipeline (fst (stp a s))
    (w + count_ev is_cas_win (snd (stp a s)))
    (p + count_ev is_publish (snd (stp a s)))
    (r + count_ev is_ready_store (snd (stp a s)))
    (c + count_ev is_record (snd (stp a s))).
Proof.
  intros (Hw & Hp & Hc). unfold pipeline.
  destruct a as [tid | os | tid uc env | tid uc env | h now].
  - (* a call begins *)
    simpl. unfold unconsumed in *.
    destruct (d_pc (driver s)) as [| | | | | | | | | | | | | [] |] eqn:Hpc;
      simpl; rewrite ?Hpc; lia.
  - (* the timer thread *)
    change (stp (ActDriver os) s) with (walk os s).
    rewrite (walk_keeps_handlers SYSCALL_SIZE isSyscall findLibraryByAddress wc).
    unfold walkStack_step, unconsumed in *.
    destruct (d_pc (driver s)) as [| | | | | | | | start | | data | | | [] |] eqn:Hpc;
      simpl; rewrite ?Hpc; simpl; try lia.
    + destruct (signal_ok os); simpl; lia.
    + destruct (waitWhile_turn _ _ _ _) as [[] |] eqn:Hwait; simpl; rewrite ?Hpc; try lia.
      apply wait_returns_true in Hwait. rewrite Hwait in Hc. simpl in Hc. lia.
    + destruct (deref _ _); simpl; lia.
  - (* a signal is delivered *)
    simpl. destruct (existsb _ _); simpl; rewrite ?count_pc_app; simpl;
      unfold unconsumed in *; simpl; lia.
  - simpl. rewrite !count_pc_app. simpl. unfold unconsumed in *. simpl. lia.
  - (* a handler *)
    simpl. destruct (handlers s !! h) as [hd |] eqn:Hh; simpl; [ | lia ].
    pose proof (fun hd' => count_pc_insert before_publish (handlers s) h hd hd' Hh) as HB.
    pose proof (fun hd' => count_pc_insert before_ready (handlers s) h hd hd' Hh) as HR.
    unfold signalHandler_step.
    destruct (h_pc hd) as [| | | | | | start |] eqn:Hhp;
      try destruct (h_tid hd =? _thread_id (slot s));
      try destruct (_thread_data_settable (slot s));
      try destruct (waitWhile_turn _ _ _ _);
      simpl;
      match goal with
      | |- context [<[h := ?x]> (handlers s)] => specialize (HB x); specialize (HR x)
      end;
      simpl in HB, HR; rewrite ?Hhp in HB, HR; simpl in HB, HR;
      unfold unconsumed in *; simpl;
      destruct (d_pc (driver s)); destruct (_thread_data_ready (slot s));
      simpl in *; lia.
Qed.

(** X15. Nothing in the handshake happens more often than the step
    before it.  At every point of every execution from the initial
    state: the recorder has been called at most as often as a handler
    has stored [_thread_data_ready = true]; that at most as often as a
    handler has stored its pointer; that at most as often as a
    compare-and-swap of the gate has succeeded; and that at most as often
    as [walkStack] has opened the gate. *)
Theorem handshake_stages_in_order (sch : list Action) :
  let evs := snd (run sch boot) in
  (count_ev is_record evs <= count_ev is_ready_store evs)%nat /\
  (count_ev is_ready_store evs <= count_ev is_publish evs)%nat /\
  (count_ev is_publish evs <= count_ev is_cas_win evs)%nat /\
  (count_ev is_cas_win evs <= count_ev is_arm evs)%nat.
Proof.
  assert (G : forall sch s w p r c,
    pipeline s w p r c ->
    pipeline (fst (run sch s))
      (w + count_ev is_cas_win (snd (run sch s)))
      (p + count_ev is_publish (snd (run sch s)))
      (r + count_ev is_ready_store (snd (run sch s)))
      (c + count_ev is_record (snd (run sch s)))).
  { clear sch. induction sch as [| a sch IH]; intros s w p r c Hp.
    - simpl. rewrite !Nat.add_0_r. exact Hp.
    - rewrite exec_cons. simpl fst. simpl snd. rewrite !count_ev_app, !Nat.add_assoc.
      apply IH. apply pipeline_step. exact Hp. }
  assert (P0 : pipeline boot 0 0 0 0) by (unfold pipeline, unconsumed, boot; simpl; lia).
  destruct (G sch boot 0%nat 0%nat 0%nat 0%nat P0) as (Hw & Hp & Hc). simpl in Hw, Hp, Hc.
  pose proof (exec_budget SYSCALL_SIZE isSyscall findLibraryByAddress wc sch boot) as B.
  simpl in B. cbv zeta. lia.
Qed.


(** *** What the recorder is given *)

Local Abbreviation from := (record_from SYSCALL_SIZE isSyscall findLibraryByAddress wc).

Lemma handler_step_same (now : Z) (h : nat) (hd : Handler) (sl : Slot) :
  let hd' := fst (fst (signalHandler_step now h hd sl)) in
  same_invocation hd hd' /\ (data_is_own hd -> data_is_own hd')
  /\ Forall (from []) (snd (signalHandler_step now h hd sl)).
Proof.
  unfold signalHandler_step, same_invocation, data_is_own.
  destruct (h_pc hd); simpl; auto 10.
  - destruct (h_tid hd =? _thread_id sl); simpl; auto 10.
  - destruct (_thread_data_settable sl); simpl; repeat split; auto; repeat constructor.
  - repeat split; auto. repeat constructor.
  - repeat split; auto. repeat constructor.
  - repeat split; auto. repeat constructor.
  - destruct (waitWhile_turn _ _ _ _); simpl; repeat split; auto; repeat constructor.
Qed.

Lemma from_weaken (hs hs' : list Handler) (e : Event) :
  (forall h hd, hs !! h = Some hd ->
   exists hd', hs' !! h = Some hd' /\ same_invocation hd hd') ->
  from hs e -> from hs' e.
Proof.
  intros Hgrow. destruct e; simpl; auto.
  intros (Hi & Hst & h & hd & Hh & Huc & Henv).
  destruct (Hgrow h hd Hh) as (hd' & Hh' & _ & Huc' & Henv').
  repeat split; auto. exists h, hd'. repeat split; congruence.
Qed.

Lemma invocation_persists_step (a : Action) (s : Sys) (h : nat) (hd : Handler) :
  handlers s !! h = Some hd ->
  exists hd', handlers (fst (stp a s)) !! h = Some hd' /\ same_invocation hd hd'.
Proof.
  intros Hh.
  destruct (handler_after_step SYSCALL_SIZE isSyscall findLibraryByAddress wc a s h hd Hh)
    as (hd' & Hh' & [-> | (now & _ & ->)]).
  - exists hd. split; [ exact Hh' | unfold same_invocation; auto ].
  - eexists. split; [ exact Hh' | ]. apply handler_step_same.
Qed.

Lemma invocation_persists (sch : list Action) :
  forall (s : Sys) (h : nat) (hd : Handler),
  handlers s !! h = Some hd ->
  exists hd', handlers (fst (run sch s)) !! h = Some hd' /\ same_invocation hd hd'.
Proof.
  induction sch as [| a sch IH]; intros s h hd Hh.
  - exists hd. split; [ exact Hh | unfold same_invocation; auto ].
  - rewrite exec_cons. simpl fst.
    destruct (invocation_persists_step a s h hd Hh) as (hd1 & H1 & S1 & S2 & S3).
    destruct (IH _ _ _ H1) as (hd2 & H2 & T1 & T2 & T3).
    exists hd2. split; [ exact H2 | unfold same_invocation; repeat split; congruence ].
Qed.

Lemma data_all_own_step (a : Action) (s : Sys) :
  data_all_own (handlers s) ->
  data_all_own (handlers (fst (stp a s)))
  /\ Forall (from (handlers (fst (stp a s)))) (snd (stp a s)).
Proof.
  intros Hown.
  destruct a as [tid | os | tid uc env | tid uc env | h now].
  - simpl. destruct (d_pc (driver s)); simpl; auto.
  - change (stp (ActDriver os) s) with (walk os s).
    rewrite (walk_keeps_handlers SYSCALL_SIZE isSyscall findLibraryByAddress wc).
    split; [ exact Hown | ].
    unfold walkStack_step.
    destruct (d_pc (driver s)) as [| | | | | | | | start | | data | | | b |];
      simpl; try (repeat constructor; fail).
    + destruct (signal_ok os); simpl; repeat constructor.
    + destruct (waitWhile_turn _ _ _ _) as [[] |]; simpl; repeat constructor.
    + unfold deref. destruct data as [h |]; simpl; [ | constructor ].
      destruct (handlers s !! h) as [hd |] eqn:Hh; simpl; [ | constructor ].
      destruct (Hown h hd Hh) as [E | E]; rewrite E.
      * destruct (h_pc hd); simpl; constructor.
      * destruct (h_pc hd); simpl;
          (constructor; [ simpl; repeat split; exists h, hd; auto | constructor ])
          || constructor.
  - simpl. destruct (existsb _ _); simpl; [ | auto ].
    split; [ | constructor ].
    intros h hd Hh. apply lookup_snoc_Some in Hh as [[_ Hh] | [_ <-]].
    + eapply Hown; exact Hh.
    + left. reflexivity.
  - simpl. split; [ | constructor ].
    intros h hd Hh. apply lookup_snoc_Some in Hh as [[_ Hh] | [_ <-]].
    + eapply Hown; exact Hh.
    + left. reflexivity.
  - simpl. destruct (handlers s !! h) as [hd |] eqn:Hh; simpl; [ | auto ].
    destruct (handler_step_same now h hd (slot s)) as (_ & Hkeep & Hev).
    destruct (signalHandler_step now h hd (slot s)) as [[hd' sl'] evs]. simpl in *.
    split.
    + intros i x Hi.
      apply list_lookup_insert_Some in Hi as [(<- & <- & _) | (_ & Hi)].
      * apply Hkeep. eapply Hown; exact Hh.
      * eapply Hown; exact Hi.
    + eapply Forall_impl; [ exact Hev | ].
      intros e He. eapply from_weaken; [ | exact He ]. intros ? ? H. discriminate.
Qed.

Lemma frames_update (s : Sys) (sl' : Slot) (h : nat) (hd hd' : Handler) :
  frames_inv s ->
  handlers s !! h = Some hd ->
  data_is_own hd' ->
  (built (h_pc hd') = true -> h_data hd' <> None) ->
  (h_data hd' <> None -> built (h_pc hd') = true \/ h_pc hd' = HDone) ->
  (h_data hd <> None -> h_data hd' <> None) ->
  (_thread_data sl' = _thread_data (slot s)
   \/ (_thread_data sl' = Some h /\ h_data hd' <> None)) ->
  frames_inv (mkSys sl' (driver s) (<[h := hd']> (handlers s)) (pending s)).
Proof.
  intros [Fo Fb Fd Fp Fr] Hh Hown Hb Hd Hmono Hsl.
  assert (Hlt : (h < length (handlers s))%nat) by (eapply lookup_lt_Some; eassumption).
  assert (Hkeep : forall i,
            (exists x, handlers s !! i = Some x /\ h_data x <> None) ->
            exists x, <[h := hd']> (handlers s) !! i = Some x /\ h_data x <> None).
  { intros i (x & Hi & Hx). destruct (decide (h = i)) as [-> | Hne].
    - exists hd'. rewrite list_lookup_insert_eq by exact Hlt.
      rewrite Hh in Hi. injection Hi as <-. auto.
    - exists x. rewrite list_lookup_insert_ne by exact Hne. auto. }
  constructor; simpl.
  - intros i x Hi.
    apply list_lookup_insert_Some in Hi as [(<- & <- & _) | (_ & Hi)];
      [ exact Hown | eapply Fo; exact Hi ].
  - intros i x Hi.
    apply list_lookup_insert_Some in Hi as [(<- & <- & _) | (_ & Hi)];
      [ exact Hb | eapply Fb; exact Hi ].
  - intros i x Hi.
    apply list_lookup_insert_Some in Hi as [(<- & <- & _) | (_ & Hi)];
      [ exact Hd | eapply Fd; exact Hi ].
  - intros i Hi. destruct Hsl as [E | [E Hx]].
    + apply Hkeep. apply Fp. congruence.
    + rewrite E in Hi. injection Hi as <-.
      exists hd'. rewrite list_lookup_insert_eq by exact Hlt. auto.
  - intros i Hi. apply Hkeep. apply Fr. exact Hi.
Qed.

Lemma frames_invoke (tid : Z) (uc : StackFrame) (env : Z) (s : Sys) (pd : list Z) :
  frames_inv s ->
  frames_inv (invoke tid uc env (mkSys (slot s) (driver s) (handlers s) pd)).
Proof.
  intros [Fo Fb Fd Fp Fr]. unfold invoke.
  assert (Hkeep : forall i,
            (exists x, handlers s !! i = Some x /\ h_data x <> None) ->
            exists x, (handlers s ++ [mkHandler tid uc env None HCheck]) !! i = Some x
                      /\ h_data x <> None).
  { intros i (x & Hi & Hx). exists x. split; [ apply lookup_app_l_Some; exact Hi | exact Hx ]. }
  constructor; simpl.
  - intros i x Hi. apply lookup_snoc_Some in Hi as [[_ Hi] | [_ <-]];
      [ eapply Fo; exact Hi | left; reflexivity ].
  - intros i x Hi. apply lookup_snoc_Some in Hi as [[_ Hi] | [_ <-]];
      [ eapply Fb; exact Hi | discriminate ].
  - intros i x Hi. apply lookup_snoc_Some in Hi as [[_ Hi] | [_ <-]];
      [ eapply Fd; exact Hi | simpl; congruence ].
  - intros i Hi. apply Hkeep. apply Fp. exact Hi.
  - intros i Hi. apply Hkeep. apply Fr. exact Hi.
Qed.

Lemma frames_step (a : Action) (s : Sys) :
  frames_inv s -> frames_inv (fst (stp a s)).
Proof.
  intros Hinv. pose proof Hinv as [Fo Fb Fd Fp Fr].
  destruct a as [tid | os | tid uc env | tid uc env | h now].
  - simpl. destruct (d_pc (driver s)); simpl; try exact Hinv;
      constructor; simpl; auto; discriminate.
  - simpl. unfold walkStack_step.
    destruct (d_pc (driver s)) as [| | | | | | | | start | | data | | | b |] eqn:Hpc;
      simpl; try exact Hinv;
      try (constructor; simpl; auto; discriminate).
    + destruct (signal_ok os); constructor; simpl; auto; discriminate.
    + destruct (waitWhile_turn _ _ _ _) as [[] |]; simpl; try exact Hinv;
        constructor; simpl; auto; discriminate.
    + constructor; simpl; auto. intros h [= E]. apply Fp. exact E.
    + destruct (deref _ _); constructor; simpl; auto; discriminate.
  - simpl. destruct (existsb _ _); simpl; [ | exact Hinv ].
    apply (frames_invoke tid uc env s (remove_first tid (pending s))). exact Hinv.
  - simpl. pose proof (frames_invoke tid uc env s (pending s) Hinv) as H.
    destruct s. exact H.
  - simpl. destruct (handlers s !! h) as [hd |] eqn:Hh; [ | exact Hinv ].
    pose proof (Fo h hd Hh) as Hown.
    pose proof (Fb h hd Hh) as Hb.
    pose proof (Fd h hd Hh) as Hd.
    unfold data_is_own in Hown.
    unfold signalHandler_step.
    destruct (h_pc hd) as [| | | | | | start |] eqn:Hhp; simpl in Hb, Hd.
    + destruct (h_tid hd =? _thread_id (slot s)); simpl;
        apply frames_update with (hd := hd); simpl; auto;
        intros H; destruct (Hd H); discriminate.
    + destruct (_thread_data_settable (slot s)); simpl;
        apply frames_update with (hd := hd); simpl; auto;
        try discriminate; intros H; destruct (Hd H); discriminate.
    + apply frames_update with (hd := hd); simpl; auto;
        try discriminate; right; reflexivity.
    + apply frames_update with (hd := hd); simpl; auto.
    + apply frames_update with (hd := hd); simpl; auto.
    + apply frames_update with (hd := hd); simpl; auto.
    + destruct (waitWhile_turn _ _ _ _); simpl.
      * apply frames_update with (hd := hd); simpl; auto.
      * replace s with (mkSys (slot s) (driver s) (handlers s) (pending s)) at 1
          by (destruct s; reflexivity).
        apply frames_update with (hd := hd); simpl; auto.
        rewrite Hhp. auto.
    + replace s with (mkSys (slot s) (driver s) (handlers s) (pending s)) at 1
        by (destruct s; reflexivity).
      apply frames_update with (hd := hd); simpl; auto.
      rewrite Hhp. auto.
Qed.

Lemma frames_exec (sch : list Action) :
  forall s, frames_inv s -> frames_inv (fst (run sch s)).
Proof.
  induction sch as [| a sch IH]; intros s Hinv; [ exact Hinv | ].
  rewrite exec_cons. simpl fst. apply IH. apply frames_step. exact Hinv.
Qed.

Lemma frames_boot : frames_inv boot.
Proof.
  constructor; simpl; try discriminate; intros h hd Hh; discriminate.
Qed.

(** X17. What the recorder is given.  Every recorder call of every
    execution from the initial state passes the configured [_interval];
    passes as thread state what [getThreadState] says of the context it
    passes when idle threads are sampled, and THREAD_UNKNOWN otherwise;
    and passes the [ucontext] and the [JNIEnv] of one and the same
    handler invocation.  The frame it reads them from is alive: whenever
    [walkStack] has loaded a non-null pointer, in any execution, the
    pointer is the address of the [data] of an invocation that built it;
    if that invocation has not returned, the next step of [walkStack]
    calls the recorder with exactly that invocation's [ucontext] and
    [JNIEnv].  If it has returned, the frame is dead and the read is
    undefined behaviour, as is the read through a null pointer: the
    timer thread is taken to [WFault] and followed no further, so every
    recorder call of an execution comes from an invocation that, at the
    moment of the call, has built its [data] and has not returned. *)
Theorem recorder_reads_live_frame (sch : list Action) (os : OSIn) :
  let s := fst (run sch boot) in
  Forall (from (handlers s)) (snd (run sch boot)) /\
  (forall h, d_pc (driver s) = WRecord (Some h) ->
   exists hd,
     handlers s !! h = Some hd /\
     (h_pc hd <> HDone ->
      built (h_pc hd) = true /\
      stp (ActDriver os) s
      = (goto WRelease s,
         [EvRecord (h_ucontext hd) (_interval wc)
            (if _sample_idle_threads wc
             then fst (getThreadState SYSCALL_SIZE isSyscall findLibraryByAddress
                         (h_ucontext hd))
             else THREAD_UNKNOWN)
            (h_jni hd)])) /\
     (h_pc hd = HDone -> stp (ActDriver os) s = (goto WFault s, []))) /\
  (d_pc (driver s) = WRecord None -> stp (ActDriver os) s = (goto WFault s, [])) /\
  (forall e, In e (snd (stp (ActDriver os) s)) -> is_record e = true ->
   exists h hd,
     d_pc (driver s) = WRecord (Some h) /\ handlers s !! h = Some hd /\
     built (h_pc hd) = true /\
     e = EvRecord (h_ucontext hd) (_interval wc)
           (if _sample_idle_threads wc
            then fst (getThreadState SYSCALL_SIZE isSyscall findLibraryByAddress
                        (h_ucontext hd))
            else THREAD_UNKNOWN)
           (h_jni hd)).
Proof.
  intros s.
  assert (G : forall sch s,
    data_all_own (handlers s) ->
    Forall (from (handlers (fst (run sch s)))) (snd (run sch s))).
  { clear sch s. induction sch as [| a sch IH]; intros s Hown; [ constructor | ].
    rewrite exec_cons. simpl fst. simpl snd.
    destruct (data_all_own_step a s Hown) as [Hown1 Hev1].
    apply Forall_app. split; [ | apply IH; exact Hown1 ].
    eapply Forall_impl; [ exact Hev1 | ].
    intros e He. eapply from_weaken; [ | exact He ].
    intros h hd Hh. apply invocation_persists. exact Hh. }
  pose proof (frames_exec sch boot frames_boot) as [Fo Fb Fd Fp Fr]. fold s in Fo, Fb, Fd, Fp, Fr.
  assert (Live : forall h, d_pc (driver s) = WRecord (Some h) ->
    exists hd,
      handlers s !! h = Some hd /\
      h_data hd = Some (mkData (h_ucontext hd) (h_jni hd)) /\
      (h_pc hd <> HDone -> built (h_pc hd) = true)).
  { intros h Hpc. destruct (Fr h Hpc) as (hd & Hh & Hdata).
    exists hd. split; [ exact Hh | ].
    split.
    - destruct (Fo h hd Hh) as [E | E]; [ contradiction | exact E ].
    - intros Hnd. destruct (Fd h hd Hh Hdata) as [B | D]; [ exact B | contradiction ]. }
  split; [ | split; [ | split ] ].
  - apply G. intros h hd Hh. discriminate.
  - intros h Hpc. destruct (Live h Hpc) as (hd & Hh & Hdata & Hb).
    exists hd. split; [ exact Hh | ]. split.
    + intros Hnd. split; [ exact (Hb Hnd) | ].
      simpl. unfold walkStack_step. rewrite Hpc. unfold deref. rewrite Hh, Hdata.
      destruct (h_pc hd); try reflexivity. contradiction.
    + intros Hdone.
      simpl. unfold walkStack_step. rewrite Hpc. unfold deref. rewrite Hh, Hdone.
      reflexivity.
  - intros Hpc. simpl. unfold walkStack_step. rewrite Hpc. reflexivity.
  - intros e. simpl. unfold walkStack_step.
    destruct (d_pc (driver s)) as [| | | | | | | | start | | data | | | b |] eqn:Hpc;
      simpl; try contradiction;
      try (intros [<- | []]; discriminate).
    + destruct (signal_ok os); simpl; intros [<- | []]; discriminate.
    + destruct (waitWhile_turn _ _ _ _) as [[] |]; simpl;
        try contradiction; intros [<- | []]; discriminate.
    + destruct data as [h |]; [ | simpl; contradiction ].
      destruct (Live h eq_refl) as (hd & Hh & Hdata & Hb).
      unfold deref. rewrite Hh, Hdata.
      destruct (h_pc hd) eqn:E; simpl; try contradiction;
        intros [<- | []] _; exists h, hd; rewrite E;
        (split; [ reflexivity | split; [ exact Hh | split; [ | reflexivity ] ] ]);
        apply Hb; discriminate.
Qed.


(** X21. The handshake keeps the frame alive.  As long as the timer
    thread never abandons a call, whatever the handlers and stray signals
    do: when [walkStack] is about to read through the pointer it loaded,
    the pointer is the address of the [data] of an invocation that is
    inside its wait for [_stack_walked], which is still false; and the
    next step of [walkStack] calls the recorder with that invocation's
    [ucontext] and [JNIEnv]. *)
Theorem unabandoned_record_reads_waiter (sch : list Action) (os : OSIn) :
  (forall k, d_pc (driver (fst (run (take k sch) boot))) <> WAbandon) ->
  let s := fst (run sch boot) in
  forall p, d_pc (driver s) = WRecord p ->
  exists h hd,
    p = Some h /\ handlers s !! h = Some hd /\
    waiting (h_pc hd) = true /\
    _stack_walked (slot s) = false /\
    stp (ActDriver os) s
    = (goto WRelease s,
       [EvRecord (h_ucontext hd) (_interval wc)
          (if _sample_idle_threads wc
           then fst (getThreadState SYSCALL_SIZE isSyscall findLibraryByAddress
                       (h_ucontext hd))
           else THREAD_UNKNOWN)
          (h_jni hd)]).
Proof.
  intros Hna s p Hpc.
  destruct (inv_exec SYSCALL_SIZE isSyscall findLibraryByAddress wc sch boot
              inv_boot live_boot Hna) as [Hinv Hlive].
  fold s in Hinv, Hlive.
  pose proof (frames_exec sch boot frames_boot) as Hfr. fold s in Hfr.
  destruct (live_rec s Hlive p Hpc) as (h & hd & -> & Hh & Hw).
  exists h, hd.
  split; [ reflexivity | ]. split; [ exact Hh | ]. split; [ exact Hw | ].
  split; [ apply (live_walked s Hlive); rewrite Hpc; reflexivity | ].
  assert (Hb : built (h_pc hd) = true) by (destruct (h_pc hd); auto; discriminate).
  assert (Hd : h_data hd = Some (mkData (h_ucontext hd) (h_jni hd))).
  { destruct (fr_own s Hfr h hd Hh) as [E | E]; [ | exact E ].
    exfalso. exact (fr_built s Hfr h hd Hh Hb E). }
  simpl. unfold walkStack_step. rewrite Hpc. unfold deref. rewrite Hh, Hd.
  destruct (h_pc hd); try discriminate; reflexivity.
Qed.

(** *** Release *)

(** X19. The release works.  Once [_stack_walked] is true, a handler in
    its wait loop returns at its next turn: however the handlers and
    signal deliveries interleave while [walkStack] stands still, a waiting
    invocation that takes at least one step has returned. *)
Theorem released_waiter_returns (env : list Action) :
  forall (s : Sys) (h : nat) (hd : Handler) (start now : Z),
  forallb is_env env = true ->
  _stack_walked (slot s) = true ->
  handlers s !! h = Some hd ->
  h_pc hd = HWait start ->
  In (ActHandler h now) env ->
  exists hd',
    handlers (fst (run env s)) !! h = Some hd' /\ h_pc hd' = HDone.
Proof.
  induction env as [| a env IH]; intros s h hd start now Henv Hw Hh Hpc Hin;
    [ contradiction | ].
  simpl in Henv. apply andb_true_iff in Henv as [Ha Henv].
  rewrite exec_cons. simpl fst.
  destruct (env_step_frame a s Ha) as (_ & _ & Hw1 & _).
  destruct (handler_after_step SYSCALL_SIZE isSyscall findLibraryByAddress wc a s h hd Hh)
    as (hd1 & H1 & [-> | (now' & -> & ->)]).
  - destruct Hin as [-> | Hin].
    + (* the step is the waiter's own: it cannot have left it unchanged *)
      simpl in H1. rewrite Hh in H1. unfold signalHandler_step in H1.
      rewrite Hpc, waitWhile_no_timeout, Hw in H1. simpl in H1.
      assert (Hlt : (h < length (handlers s))%nat) by (eapply lookup_lt_Some; eassumption).
      rewrite list_lookup_insert_eq in H1 by exact Hlt.
      injection H1 as E. rewrite <- E in Hpc. discriminate.
    + eapply IH; eauto; congruence.
  - exists (h_goto HDone hd).
    assert (E : fst (fst (signalHandler_step now' h hd (slot s))) = h_goto HDone hd).
    { unfold signalHandler_step. rewrite Hpc, waitWhile_no_timeout, Hw. reflexivity. }
    rewrite E in H1.
    split; [ | reflexivity ].
    apply (done_persists SYSCALL_SIZE isSyscall findLibraryByAddress wc); auto.
Qed.

(** *** One handshake at a time *)

(** X20. As long as the timer thread never abandons a call, at most one
    handshake is in flight: at most one handler invocation has won the
    compare-and-swap without having stored the ready flag yet, and there
    is one, or the gate is open, only while [walkStack] stands between
    opening the gate and the end of its wait. *)
Theorem unabandoned_one_handshake_in_flight (sch : list Action) :
  (forall k, d_pc (driver (fst (run (take k sch) boot))) <> WAbandon) ->
  let s := fst (run sch boot) in
  (winners_in_flight (handlers s) <= 1)%nat /\
  (open_phase (d_pc (driver s)) = false ->
   winners_in_flight (handlers s) = O /\ _thread_data_settable (slot s) = false).
Proof.
  intros Hna s.
  destruct (inv_exec SYSCALL_SIZE isSyscall findLibraryByAddress wc sch boot
              inv_boot live_boot Hna) as [[_ Hg Hs Hp _ _ _ _ _ _] _].
  fold s in Hg, Hs, Hp. split; [ exact Hs | ].
  intros Ho. split; [ apply Hp; exact Ho | ].
  destruct (_thread_data_settable (slot s)); [ | reflexivity ].
  destruct (Hg eq_refl) as [_ Ho']. congruence.
Qed.

End HandshakeMore.

Lemma unabandoned_record_reads_waiter_witness :
  let s := fst (exec x86_SYSCALL_SIZE x86_isSyscall no_library cpu_10ms loaded_9 boot) in
  d_pc (driver s) = WRecord (Some 0%nat) /\
  exists h hd,
    Some 0%nat = Some h /\ handlers s !! h = Some hd /\
    waiting (h_pc hd) = true /\
    _stack_walked (slot s) = false /\
    step x86_SYSCALL_SIZE x86_isSyscall no_library cpu_10ms (ActDriver (os_at 3)) s
    = (goto WRelease s,
       [EvRecord (h_ucontext hd) (_interval cpu_10ms)
          (if _sample_idle_threads cpu_10ms
           then fst (getThreadState x86_SYSCALL_SIZE x86_isSyscall no_library
                       (h_ucontext hd))
           else THREAD_UNKNOWN)
          (h_jni hd)]).
Proof.
  cbv zeta.
  assert (Hna : forall k, d_pc (driver (fst (exec x86_SYSCALL_SIZE x86_isSyscall no_library
                              cpu_10ms (take k loaded_9) boot))) <> WAbandon).
  { intros k.
    do 17 (destruct k as [| k]; [ vm_compute; discriminate | ]).
    vm_compute. discriminate. }
  assert (Hpc : d_pc (driver (fst (exec x86_SYSCALL_SIZE x86_isSyscall no_library cpu_10ms
                                     loaded_9 boot))) = WRecord (Some 0%nat))
    by (vm_compute; reflexivity).
  split; [ exact Hpc | ].
  exact (unabandoned_record_reads_waiter x86_SYSCALL_SIZE x86_isSyscall no_library cpu_10ms
           loaded_9 (os_at 3) Hna (Some 0%nat) Hpc).
Defined.

Lemma recorder_reads_live_frame_witness :
  let s := fst (exec x86_SYSCALL_SIZE x86_isSyscall no_library cpu_10ms loaded_9 boot) in
  d_pc (driver s) = WRecord (Some 0%nat) /\
  exists hd,
    handlers s !! 0%nat = Some hd /\
    (h_pc hd <> HDone ->
     built (h_pc hd) = true /\
     step x86_SYSCALL_SIZE x86_isSyscall no_library cpu_10ms (ActDriver (os_at 3)) s
     = (goto WRelease s,
        [EvRecord (h_ucontext hd) (_interval cpu_10ms)
           (if _sample_idle_threads cpu_10ms
            then fst (getThreadState x86_SYSCALL_SIZE x86_isSyscall no_library
                        (h_ucontext hd))
            else THREAD_UNKNOWN)
           (h_jni hd)])) /\
    (h_pc hd = HDone ->
     step x86_SYSCALL_SIZE x86_isSyscall no_library cpu_10ms (ActDriver (os_at 3)) s
     = (goto WFault s, [])).
Proof.
  cbv zeta. split; [ vm_compute; reflexivity | ].
  pose proof (recorder_reads_live_frame x86_SYSCALL_SIZE x86_isSyscall no_library cpu_10ms
                loaded_9 (os_at 3)) as H.
  cbv zeta in H. destruct H as (_ & H & _).
  apply H. vm_compute. reflexivity.
Defined.

Lemma successful_call_records_once_witness :
  let r := exec x86_SYSCALL_SIZE x86_isSyscall no_library cpu_10ms sampling_9 boot in
  filter (fun e => is_record e = true) (snd r)
  = [EvRecord frame_in_code 10000000 THREAD_UNKNOWN 99]
  /\ count_ev is_record (snd r) = 1%nat
  /\ _thread_id (slot (fst r)) = 9.
Proof.
  cbv zeta. split; [ vm_compute; reflexivity | ].
  destruct (successful_call_records_once x86_SYSCALL_SIZE x86_isSyscall no_library cpu_10ms
              9 sampled_9 boot
              (fst (exec x86_SYSCALL_SIZE x86_isSyscall no_library cpu_10ms sampling_9 boot))
              (snd (exec x86_SYSCALL_SIZE x86_isSyscall no_library cpu_10ms sampling_9 boot)))
    as (H1 & _ & _ & _ & H5); try (vm_compute; reflexivity).
  split; [ exact H1 | exact H5 ].
Defined.

Lemma handlers_never_do_the_drivers_part_witness :
  let run := exec x86_SYSCALL_SIZE x86_isSyscall no_library cpu_10ms in
  _thread_data_ready (slot (fst (run handlers_only (fst (run armed_for_9 boot))))) = true
  /\ _stack_walked (slot (fst (run handlers_only (fst (run armed_for_9 boot))))) = false
  /\ count_ev is_record (snd (run handlers_only (fst (run armed_for_9 boot)))) = O.
Proof.
  cbv zeta. split; [ reflexivity | ].
  destruct (handlers_never_do_the_drivers_part x86_SYSCALL_SIZE x86_isSyscall no_library
              cpu_10ms handlers_only
              (fst (exec x86_SYSCALL_SIZE x86_isSyscall no_library cpu_10ms armed_for_9 boot)))
    as (_ & _ & H3 & _ & _ & H6 & _); [ reflexivity | ].
  split; [ rewrite H3; reflexivity | exact H6 ].
Defined.

Lemma unabandoned_load_is_not_null_witness :
  d_pc (driver (fst (exec x86_SYSCALL_SIZE x86_isSyscall no_library cpu_10ms
                       sampling_9 boot))) <> WFault.
Proof.
  apply (unabandoned_load_is_not_null x86_SYSCALL_SIZE x86_isSyscall no_library cpu_10ms
           sampling_9).
  intros k.
  do 19 (destruct k as [| k]; [ vm_compute; discriminate | ]).
  vm_compute. discriminate.
Defined.

Lemma released_waiter_returns_witness :
  let run := exec x86_SYSCALL_SIZE x86_isSyscall no_library cpu_10ms in
  exists hd',
    handlers (fst (run waiter_runs (fst (run released_9 boot)))) !! 0%nat = Some hd'
    /\ h_pc hd' = HDone.
Proof.
  cbv zeta.
  apply (released_waiter_returns x86_SYSCALL_SIZE x86_isSyscall no_library cpu_10ms
           waiter_runs
           (fst (exec x86_SYSCALL_SIZE x86_isSyscall no_library cpu_10ms released_9 boot))
           0%nat
           (mkHandler 9 frame_in_code 99 (Some (mkData frame_in_code 99)) (HWait 2))
           2 6).
  - reflexivity.
  - vm_compute. reflexivity.
  - vm_compute. reflexivity.
  - reflexivity.
  - right. right. left. reflexivity.
Defined.

Lemma unabandoned_one_handshake_in_flight_witness :
  (winners_in_flight
     (handlers (fst (exec x86_SYSCALL_SIZE x86_isSyscall no_library cpu_10ms
                       sampling_9 boot))) <= 1)%nat.
Proof.
  apply (unabandoned_one_handshake_in_flight x86_SYSCALL_SIZE x86_isSyscall no_library
           cpu_10ms sampling_9).
  intros k.
  do 19 (destruct k as [| k]; [ vm_compute; discriminate | ]).
  vm_compute. discriminate.
Defined.

(** ** Failed handshakes *)


Section FailedSamples.

Variable World : Type.
Variable walkStack : Z -> World -> bool * World.
Variable threadState : Z -> World -> ThreadState.
Variable wc : WallClock.
Variable self : Z.
Variable thread_filter : ThreadFilter.

Local Abbreviation turn := (sample_turn World walkStack threadState wc self thread_filter).
Local Abbreviation loop := (sample_loop World walkStack threadState wc self thread_filter).
Local Abbreviation iteration :=
  (timerLoop_turn World walkStack threadState wc self thread_filter).




End FailedSamples.


